(** * Skyfall Escape: the serial button protocol, host and firmware side

    A shallow embedding of

    - [src/pygametiro.py]: [SerialController] (line reassembly, line
      parsing, flag folding, [consume_shot]) and the bullet/obstacle
      collision pass of [main];
    - [src/shooting_game/thonnygame.py]: [SimpleButton] (debounce and
      HELD heartbeat).

    The first half of the file holds the definitions, module by module; the
    second half holds the lemmas and theorems about them. *)

From Stdlib Require Import ZArith NArith List Bool Lia.
From Stdlib Require Import Strings.String Strings.Ascii Strings.Byte.
From stdpp Require Import gmap.
Import ListNotations.

(* ===================================================================== *)
(** * Python text: [str] as a list of Unicode code points               *)
(* ===================================================================== *)

Module Text.

Local Open Scope N_scope.

(** A Python [str] is a sequence of code points. *)
Definition str := list N.

(** A [str] literal written with ASCII characters. *)
Definition lit (s : string) : str := map N_of_ascii (list_ascii_of_string s).

(** [ch.isspace()] as used by [str.split()] and [str.strip()] without
    arguments: the ASCII white space 0x09-0x0D, 0x1C-0x1F, 0x20 and the
    Unicode white space beyond ASCII. *)
Definition isspace (c : N) : bool :=
  ((9 <=? c) && (c <=? 13)) || ((28 <=? c) && (c <=? 32))
  || (c =? 133) || (c =? 160) || (c =? 5760)
  || ((8192 <=? c) && (c <=? 8202))
  || (c =? 8232) || (c =? 8233) || (c =? 8239) || (c =? 8287)
  || (c =? 12288).

Definition is_ascii_lower (c : N) : bool := (97 <=? c) && (c <=? 122).
Definition is_ascii_upper (c : N) : bool := (65 <=? c) && (c <=? 90).

Section Upper.

(** [str.upper()] maps every code point through the Unicode case tables;
    one code point may become several.  Below 128 the mapping is the
    ASCII one and is written out.  The tables for the other code points
    belong to the Python runtime, not to this repository: they are the
    parameter [upper_table]. *)
Variable upper_table : N -> list N.

Definition upper_cp (c : N) : list N :=
  if is_ascii_lower c then [c - 32]
  else if c <? 128 then [c]
  else upper_table c.

Definition upper (s : str) : str := flat_map upper_cp s.

End Upper.

(** [s.split()]: the maximal runs of non-space code points, in order.
    [cur] holds the run being read, most recent code point first. *)
Fixpoint split_from (cur : str) (s : str) : list str :=
  match s with
  | [] => match cur with [] => [] | _ :: _ => [rev cur] end
  | c :: s' =>
      if isspace c
      then match cur with
           | [] => split_from [] s'
           | _ :: _ => rev cur :: split_from [] s'
           end
      else split_from (c :: cur) s'
  end.

Definition split (s : str) : list str := split_from [] s.

(** [s.lstrip()], [s.rstrip()] and [s.strip()]. *)
Fixpoint lstrip (s : str) : str :=
  match s with
  | [] => []
  | c :: s' => if isspace c then lstrip s' else s
  end.

Definition rstrip (s : str) : str := rev (lstrip (rev s)).

Definition strip (s : str) : str := rstrip (lstrip s).

(** Equality test on [str], the [==] of the source. *)
Definition eqb (a b : str) : bool := bool_decide (a = b).

(** Two code points that are the same ASCII letter up to case, or equal. *)
Definition same_letter (a b : N) : Prop :=
  a = b
  \/ (is_ascii_upper a = true /\ b = a + 32)
  \/ (is_ascii_upper b = true /\ a = b + 32).

(** Two lines that differ in the case of their ASCII letters only. *)
Definition case_variant (l1 l2 : str) : Prop := Forall2 same_letter l1 l2.

(** What the Unicode tables guarantee and the line handler relies on: the
    upper case of a code point that is not white space is not made of
    white space only. *)
Definition upper_keeps_text (upper_table : N -> list N) : Prop :=
  forall c, 128 <= c -> isspace c = false ->
            exists c', In c' (upper_table c) /\ isspace c' = false.

Section Lower.

(** [str.lower()], with the tables beyond ASCII as a parameter, as for
    [upper]. *)
Variable lower_table : N -> list N.

Definition lower_cp (c : N) : list N :=
  if is_ascii_upper c then [c + 32]
  else if c <? 128 then [c]
  else lower_table c.

Definition lower (s : str) : str := flat_map lower_cp s.

End Lower.

(** [s.startswith(p)] and [needle in hay]. *)
Fixpoint is_prefix (p s : str) : bool :=
  match p, s with
  | [], _ => true
  | _ :: _, [] => false
  | a :: p', b :: s' => (a =? b) && is_prefix p' s'
  end.

Fixpoint contains (needle hay : str) : bool :=
  is_prefix needle hay
  || match hay with
     | [] => false
     | _ :: hay' => contains needle hay'
     end.

End Text.

(* ===================================================================== *)
(** * [bytes.decode("utf-8", errors="ignore")]                          *)
(* ===================================================================== *)

Module Utf8.

Local Open Scope N_scope.

(** A continuation byte, 0x80-0xBF. *)
Definition is_cont (b : byte) : bool :=
  (128 <=? Byte.to_N b) && (Byte.to_N b <? 192).

(** The second byte of a three-byte sequence: a continuation byte, not
    below 0xA0 after 0xE0 (overlong) and not from 0xA0 after 0xED
    (surrogates). *)
Definition second_of_3 (b0 b1 : byte) : bool :=
  is_cont b1
  && negb ((Byte.to_N b0 =? 224) && (Byte.to_N b1 <? 160))
  && negb ((Byte.to_N b0 =? 237) && (160 <=? Byte.to_N b1)).

(** The second byte of a four-byte sequence: a continuation byte, not
    below 0x90 after 0xF0 (overlong) and not from 0x90 after 0xF4 (beyond
    U+10FFFF). *)
Definition second_of_4 (b0 b1 : byte) : bool :=
  is_cont b1
  && negb ((Byte.to_N b0 =? 240) && (Byte.to_N b1 <? 144))
  && negb ((Byte.to_N b0 =? 244) && (144 <=? Byte.to_N b1)).

Definition cp2 (b0 b1 : byte) : N :=
  (Byte.to_N b0 - 192) * 64 + (Byte.to_N b1 - 128).

Definition cp3 (b0 b1 b2 : byte) : N :=
  (Byte.to_N b0 - 224) * 4096 + (Byte.to_N b1 - 128) * 64
  + (Byte.to_N b2 - 128).

Definition cp4 (b0 b1 b2 b3 : byte) : N :=
  (Byte.to_N b0 - 240) * 262144 + (Byte.to_N b1 - 128) * 4096
  + (Byte.to_N b2 - 128) * 64 + (Byte.to_N b3 - 128).

(** The decoder.  A well-formed sequence gives its code point.  On an
    ill-formed one the bytes that were accepted so far as its prefix are
    dropped and decoding goes on at the byte that did not fit; a sequence
    cut off by the end of the input is dropped whole. *)
Fixpoint decode_ignore (bs : list byte) : Text.str :=
  match bs with
  | [] => []
  | b0 :: r0 =>
      let c0 := Byte.to_N b0 in
      if c0 <? 128 then c0 :: decode_ignore r0
      else if c0 <? 194 then decode_ignore r0
      else if c0 <? 224 then
        match r0 with
        | [] => []
        | b1 :: r1 =>
            if is_cont b1 then cp2 b0 b1 :: decode_ignore r1
            else decode_ignore r0
        end
      else if c0 <? 240 then
        match r0 with
        | [] => []
        | b1 :: r1 =>
            if second_of_3 b0 b1 then
              match r1 with
              | [] => []
              | b2 :: r2 =>
                  if is_cont b2 then cp3 b0 b1 b2 :: decode_ignore r2
                  else decode_ignore r1
              end
            else decode_ignore r0
        end
      else if c0 <? 245 then
        match r0 with
        | [] => []
        | b1 :: r1 =>
            if second_of_4 b0 b1 then
              match r1 with
              | [] => []
              | b2 :: r2 =>
                  if is_cont b2 then
                    match r2 with
                    | [] => []
                    | b3 :: r3 =>
                        if is_cont b3
                        then cp4 b0 b1 b2 b3 :: decode_ignore r3
                        else decode_ignore r2
                    end
                  else decode_ignore r1
              end
            else decode_ignore r0
        end
      else decode_ignore r0
  end.

End Utf8.

(* ===================================================================== *)
(** * Host side: [SerialController] of [src/pygametiro.py]              *)
(* ===================================================================== *)

Module Host.

Definition bytes := list byte.

(** [b"..."] literals and the newline byte. *)
Definition blit (s : string) : bytes := list_byte_of_string s.
Definition NL : byte := x0a.

(** The object returned by [serial.Serial(port, baud, timeout=0.0)]. *)
Inductive connection : Type :=
| Serial (port : string) (baud : Z).

(** What the serial library does when asked to open the port, and when
    asked for the waiting bytes ([conn.read_all()]): it returns bytes,
    raises [SerialException], or raises something else (an [OSError] for
    a device that is gone, say). *)
Inductive open_outcome : Type :=
| Opened
| OpenRaises.

Inductive read_outcome : Type :=
| ReadOk (data : bytes)
| ReadSerialException
| ReadRaises.

Record SerialController : Type := mkSerialController {
  port : string;
  baud : Z;
  conn : option connection;
  buffer : bytes;
  left : bool;
  right : bool;
  shoot : bool;
  reported_error : bool
}.

Definition set_buffer (b : bytes) (self : SerialController) :=
  mkSerialController (port self) (baud self) (conn self) b
    (left self) (right self) (shoot self) (reported_error self).

Definition set_left (v : bool) (self : SerialController) :=
  mkSerialController (port self) (baud self) (conn self) (buffer self)
    v (right self) (shoot self) (reported_error self).

Definition set_right (v : bool) (self : SerialController) :=
  mkSerialController (port self) (baud self) (conn self) (buffer self)
    (left self) v (shoot self) (reported_error self).

Definition set_shoot (v : bool) (self : SerialController) :=
  mkSerialController (port self) (baud self) (conn self) (buffer self)
    (left self) (right self) v (reported_error self).

Definition set_reported_error (v : bool) (self : SerialController) :=
  mkSerialController (port self) (baud self) (conn self) (buffer self)
    (left self) (right self) (shoot self) v.

(** [_open]: the [try] catches every [Exception] of the library and turns
    it into [None].  (The two [print] calls write to the console only.) *)
Definition _open (lib : open_outcome) (p : string) (b : Z)
  : option connection :=
  match lib with
  | Opened => Some (Serial p b)
  | OpenRaises => None
  end.

Definition __init__ (lib : open_outcome) (p : string) (b : Z)
  : SerialController :=
  mkSerialController p b (_open lib p b) [] false false false false.

(** [buf.split(b"\n", 1)] when [b"\n" in buf]: the bytes before the first
    newline and the bytes after it; [None] when there is no newline. *)
Fixpoint split_newline (buf : bytes) : option (bytes * bytes) :=
  match buf with
  | [] => None
  | b :: r =>
      if Byte.eqb b NL then Some ([], r)
      else match split_newline r with
           | Some (line, rest) => Some (b :: line, rest)
           | None => None
           end
  end.

(** [consume_shot]: the returned value and the controller afterwards. *)
Definition consume_shot (self : SerialController)
  : bool * SerialController :=
  if shoot self then (true, set_shoot false self) else (false, self).

Section Controller.

Variable upper_table : N -> list N.

(** [_handle_line].  [None] stands for the [IndexError] of [parts[0]]
    on an empty [parts]. *)
Definition _handle_line (line : Text.str) (self : SerialController)
  : option SerialController :=
  match line with
  | [] => Some self
  | _ :: _ =>
      let parts := Text.split (Text.upper upper_table line) in
      match parts with
      | [] => None
      | name :: more =>
          let state := match more with s :: _ => s | [] => [] end in
          if Text.eqb name (Text.lit "A") then
            if Text.eqb state (Text.lit "DOWN")
               || Text.eqb state (Text.lit "HELD")
            then Some (set_left true self)
            else if Text.eqb state (Text.lit "UP")
                 then Some (set_left false self)
                 else Some self
          else if Text.eqb name (Text.lit "B") then
            if Text.eqb state (Text.lit "DOWN")
               || Text.eqb state (Text.lit "HELD")
            then Some (set_right true self)
            else if Text.eqb state (Text.lit "UP")
                 then Some (set_right false self)
                 else Some self
          else if Text.eqb name (Text.lit "C") then
            if Text.eqb state (Text.lit "DOWN")
               || Text.eqb state (Text.lit "HELD")
            then Some (set_shoot true self)
            else Some self
          else Some self
      end
  end.

(** The [while b"\n" in self.buffer] loop of [update].  Every round
    removes at least the newline from the buffer, so [length buffer]
    rounds are always enough: [n] bounds the rounds and is never what
    stops the loop (lemma [read_lines_enough]). *)
Fixpoint read_lines (n : nat) (self : SerialController)
  : option SerialController :=
  match n with
  | O => Some self
  | S n' =>
      match split_newline (buffer self) with
      | None => Some self
      | Some (line, rest) =>
          match _handle_line (Text.strip (Utf8.decode_ignore line))
                  (set_buffer rest self) with
          | None => None
          | Some self' => read_lines n' self'
          end
      end
  end.

(** [update], given what [self.conn.read_all()] does if it is called.
    [None] stands for an exception that escapes: the [except] clause
    catches [SerialException] only, so any other exception of [read_all]
    goes through, as does the [IndexError] of [_handle_line]. *)
Definition update (rd : read_outcome) (self : SerialController)
  : option SerialController :=
  match conn self with
  | None => Some self
  | Some _ =>
      match rd with
      | ReadSerialException => Some (set_reported_error true self)
      | ReadRaises => None
      | ReadOk [] => Some self
      | ReadOk data =>
          let self1 := set_buffer (buffer self ++ data) self in
          read_lines (length (buffer self1)) self1
      end
  end.

(** Successive polls, one [read_all] outcome each; an exception that
    escapes [update] ends the run. *)
Fixpoint polls (rds : list read_outcome) (self : SerialController)
  : option SerialController :=
  match rds with
  | [] => Some self
  | rd :: rds' =>
      match update rd self with
      | None => None
      | Some self' => polls rds' self'
      end
  end.

(** The lines of a list handled in order, as the loop does. *)
Fixpoint handle_lines (ls : list Text.str) (self : SerialController)
  : option SerialController :=
  match ls with
  | [] => Some self
  | l :: ls' =>
      match _handle_line l self with
      | None => None
      | Some self' => handle_lines ls' self'
      end
  end.

(** The first token of a line in upper case: the channel it names. *)
Definition channel_of (line : Text.str) : Text.str :=
  hd [] (Text.split (Text.upper upper_table line)).

End Controller.

(** The complete lines of a buffer, in order, and the partial line left
    after the last newline. *)
Fixpoint complete_lines (cur : bytes) (buf : bytes) : list bytes * bytes :=
  match buf with
  | [] => ([], rev cur)
  | b :: r =>
      if Byte.eqb b NL
      then let (ls, rest) := complete_lines [] r in (rev cur :: ls, rest)
      else complete_lines (b :: cur) r
  end.

(** The text handed to [_handle_line] for a raw line. *)
Definition text_of (line : bytes) : Text.str :=
  Text.strip (Utf8.decode_ignore line).

(** The text lines that successive polls hand to [_handle_line], in order,
    and the buffer left at the end, when the polls deliver [chunks] to a
    controller whose buffer holds [buf]. *)
Fixpoint dispatched (chunks : list bytes) (buf : bytes)
  : list Text.str * bytes :=
  match chunks with
  | [] => ([], buf)
  | [] :: chunks' => dispatched chunks' buf
  | data :: chunks' =>
      let (ls, rest) := complete_lines [] (buf ++ data) in
      let (ls', rest') := dispatched chunks' rest in
      (map text_of ls ++ ls', rest')
  end.

(** A call made by the game loop on the controller. *)
Inductive call : Type :=
| CallUpdate (rd : read_outcome)
| CallConsumeShot.

(** The number of [consume_shot] calls in a sequence of calls. *)
Fixpoint consume_calls (cs : list call) : nat :=
  match cs with
  | [] => 0
  | CallUpdate _ :: cs' => consume_calls cs'
  | CallConsumeShot :: cs' => S (consume_calls cs')
  end.

(** The lines the protocol has no meaning for: the empty line, a line of
    one token (no state keyword), and a line whose first token, in upper
    case, is none of the channel names. *)
Definition not_an_event (upper_table : N -> list N) (line : Text.str)
  : Prop :=
  line = []
  \/ (exists nm, Text.split (Text.upper upper_table line) = [nm])
  \/ (exists nm more,
        Text.split (Text.upper upper_table line) = nm :: more
        /\ nm <> Text.lit "A" /\ nm <> Text.lit "B" /\ nm <> Text.lit "C").

(** A case table that leaves every code point beyond ASCII as it is, and
    the two polls of the split-line scenario, for running the model. *)
Definition plain_table (c : N) : list N := [c].

Definition scenario_chunks : list bytes :=
  [blit "A DOWN" ++ [NL] ++ blit "B DOW";
   [];
   blit "N" ++ [NL] ++ blit "A UP" ++ [NL]].

Section Calls.

Variable upper_table : N -> list N.

(** A sequence of calls: the values returned by the [consume_shot]
    calls, in order, and the controller afterwards. *)
Fixpoint calls (cs : list call) (self : SerialController)
  : option (list bool * SerialController) :=
  match cs with
  | [] => Some ([], self)
  | CallUpdate rd :: cs' =>
      match update upper_table rd self with
      | None => None
      | Some self' => calls cs' self'
      end
  | CallConsumeShot :: cs' =>
      let (r, self') := consume_shot self in
      match calls cs' self' with
      | None => None
      | Some (rs, self'') => Some (r :: rs, self'')
      end
  end.

End Calls.

(** ** [find_serial_port] *)

(** An entry of [serial.tools.list_ports.comports()]. *)
Record port_info : Type := mkPort {
  device : string;
  description : Text.str
}.

(** What [comports()] does. *)
Inductive comports_outcome : Type :=
| PortsListed (ports : list port_info)
| ComportsRaises.

(** [DEFAULT_SERIAL_PORT], from the value of the environment variable
    [PICO_PORT], if it is set. *)
Definition DEFAULT_SERIAL_PORT (pico_port : option string) : string :=
  match pico_port with
  | Some v => v
  | None => "COM3"%string
  end.

Section Ports.

Variable lower_table : N -> list N.

Definition mentions_pico (p : port_info) : bool :=
  Text.contains (Text.lit "pico")
    (Text.lower lower_table (description p)).

(** The [for port in ports] loop: the device of the first port whose
    description mentions the Pico, if the loop returns. *)
Fixpoint first_pico (ports : list port_info) : option string :=
  match ports with
  | [] => None
  | p :: ports' =>
      if mentions_pico p then Some (device p) else first_pico ports'
  end.

Definition find_serial_port (pico_port : option string)
    (lib : comports_outcome) : string :=
  match lib with
  | ComportsRaises => DEFAULT_SERIAL_PORT pico_port
  | PortsListed ports =>
      match first_pico ports with
      | Some d => d
      | None =>
          match ports with
          | p :: _ => device p
          | [] => DEFAULT_SERIAL_PORT pico_port
          end
      end
  end.

End Ports.

(** Port lists for running the model. *)
Definition demo_ports : list port_info :=
  [mkPort "COM1" (Text.lit "Communications Port");
   mkPort "COM7" (Text.lit "Raspberry Pi PICO (COM7)");
   mkPort "COM9" (Text.lit "pico probe")].

End Host.

(* ===================================================================== *)
(** * The collision pass of [main] in [src/pygametiro.py]               *)
(* ===================================================================== *)

Module Game.

Local Open Scope Z_scope.

Definition WIDTH : Z := 900.
Definition HEIGHT : Z := 600.
Definition PLAYER_SIZE : Z := 50.
Definition OBSTACLE_SIZE : Z := 60.
Definition BULLET_WIDTH : Z := 10.
Definition BULLET_HEIGHT : Z := 22.

Definition RED_IMMUNE : Z * Z * Z := (231, 76, 60).

(** [pygame.Rect]: left, top, width, height. *)
Record Rect : Type := mkRect { x : Z; y : Z; w : Z; h : Z }.

Record Entity : Type := mkEntity { rect : Rect; color : Z * Z * Z }.

Definition bottom (r : Rect) : Z := y r + h r.

(** [a.colliderect(b)]: false for a rectangle of zero width or height,
    else the open overlap of the two (normalised) rectangles. *)
Definition colliderect (a b : Rect) : bool :=
  if (w a =? 0) || (h a =? 0) || (w b =? 0) || (h b =? 0) then false
  else (Z.min (x a) (x a + w a) <? Z.max (x b) (x b + w b))
       && (Z.min (y a) (y a + h a) <? Z.max (y b) (y b + h b))
       && (Z.min (x b) (x b + w b) <? Z.max (x a) (x a + w a))
       && (Z.min (y b) (y b + h b) <? Z.max (y a) (y a + h a)).

Definition is_immune (o : Entity) : bool :=
  bool_decide (color o = RED_IMMUNE).

(** An immune obstacle under two bullets, a plain one under a third, and
    the player out of their way, for running the model. *)
Definition demo_immune : Entity := mkEntity (mkRect 0 100 60 60) RED_IMMUNE.
Definition demo_plain : Entity :=
  mkEntity (mkRect 100 100 60 60) (255, 255, 255).
Definition demo_bullets : list Entity :=
  [mkEntity (mkRect 10 110 10 22) (46, 204, 113);
   mkEntity (mkRect 40 120 10 22) (46, 204, 113);
   mkEntity (mkRect 110 110 10 22) (46, 204, 113)].
Definition demo_player : Rect := mkRect 425 530 50 50.
Definition demo_crash : Entity :=
  mkEntity (mkRect 420 500 60 60) (255, 255, 255).

(** The inner loop over [enumerate(bullets)] for one obstacle, from index
    [i] on: the index of the bullet at which the loop breaks, if any.  For
    an immune obstacle every round is skipped with [continue]. *)
Fixpoint bullet_hit (obstacle : Entity) (i : nat) (bullets : list Entity)
  : option nat :=
  match bullets with
  | [] => None
  | bullet :: bullets' =>
      if is_immune obstacle then bullet_hit obstacle (S i) bullets'
      else if colliderect (rect obstacle) (rect bullet) then Some i
      else bullet_hit obstacle (S i) bullets'
  end.

Section Pass.

(** [score] is a Python float; the pass only ever does [score += 1] on
    it.  The type of scores and that operation are parameters. *)
Context {Score : Type}.
Variable add_one : Score -> Score.

(** The variables the loop over the obstacles works on. *)
Record pass : Type := mkPass {
  survived : list Entity;
  bullets_to_remove : gset nat;
  score : Score;
  game_over : bool
}.

(** [for obstacle in obstacles: ...], lines 219-237. *)
Fixpoint resolve (player_rect : Rect) (bullets : list Entity)
    (obstacles : list Entity) (st : pass) : pass :=
  match obstacles with
  | [] => st
  | obstacle :: obstacles' =>
      match bullet_hit obstacle 0 bullets with
      | Some i =>
          resolve player_rect bullets obstacles'
            (mkPass (survived st) ({[ i ]} ∪ bullets_to_remove st)
               (add_one (score st)) (game_over st))
      | None =>
          if colliderect (rect obstacle) player_rect
          then mkPass (survived st) (bullets_to_remove st) (score st) true
          else if HEIGHT <? y (rect obstacle)
          then resolve player_rect bullets obstacles'
                 (mkPass (survived st) (bullets_to_remove st)
                    (add_one (score st)) (game_over st))
          else resolve player_rect bullets obstacles'
                 (mkPass (survived st ++ [obstacle])
                    (bullets_to_remove st) (score st) (game_over st))
      end
  end.

(** The list comprehension of line 239, from index [idx] on. *)
Fixpoint keep_bullets (removed : gset nat) (idx : nat)
    (bullets : list Entity) : list Entity :=
  match bullets with
  | [] => []
  | b :: bullets' =>
      if bool_decide (idx ∉ removed) && (0 <? bottom (rect b))
      then b :: keep_bullets removed (S idx) bullets'
      else keep_bullets removed (S idx) bullets'
  end.

(** What the pass does with one obstacle when it is not shot and does
    not hit the player: it stays in the game unless it left the screen. *)
Definition stays (bullets : list Entity) (o : Entity) : bool :=
  match bullet_hit o 0 bullets with
  | Some _ => false
  | None => negb (HEIGHT <? y (rect o))
  end.

(** An obstacle that ends the game when the pass reaches it. *)
Definition hits_player (player_rect : Rect) (bullets : list Entity)
    (o : Entity) : bool :=
  match bullet_hit o 0 bullets with
  | Some _ => false
  | None => colliderect (rect o) player_rect
  end.

(** An obstacle that does not end the game when the pass reaches it. *)
Definition harmless (player_rect : Rect) (bullets : list Entity)
    (o : Entity) : Prop :=
  hits_player player_rect bullets o = false.

(** Lines 217-239: the new obstacles, bullets, score and [game_over]. *)
Definition collisions (player_rect : Rect) (obstacles bullets : list Entity)
    (sc : Score) (over : bool)
  : list Entity * list Entity * Score * bool :=
  let st := resolve player_rect bullets obstacles (mkPass [] ∅ sc over) in
  (survived st, keep_bullets (bullets_to_remove st) 0 bullets,
   score st, game_over st).

End Pass.

(** ** The player, the bullets and the obstacles around the pass *)

Definition PLAYER_SPEED : Z := 7.
Definition BULLET_SPEED : Z := 14.

(** [clamp]: [max(min_value, min(max_value, value))]. *)
Definition clamp (value min_value max_value : Z) : Z :=
  Z.max min_value (Z.min max_value value).

(** The fields of a [pygame.Rect] are C [int]s.  A rectangle whose
    fields, right edge and bottom edge are all in the range of a C [int]:
    on such rectangles the arithmetic of the library never wraps. *)
Definition c_int (z : Z) : Prop := - 2147483648 <= z <= 2147483647.

Definition fits_c_int (r : Rect) : Prop :=
  c_int (x r) /\ c_int (y r) /\ c_int (w r) /\ c_int (h r)
  /\ c_int (x r + w r) /\ c_int (y r + h r).

(** [rect.centerx] (the left edge plus half the width, rounded down) and
    [rect.top]. *)
Definition centerx (r : Rect) : Z := x r + w r / 2.
Definition top (r : Rect) : Z := y r.

(** [create_bullet]; [BULLET_WIDTH // 2] is Python's floor division. *)
Definition create_bullet (player_rect : Rect) : Entity :=
  mkEntity
    (mkRect (centerx player_rect - BULLET_WIDTH / 2)
       (top player_rect - BULLET_HEIGHT) BULLET_WIDTH BULLET_HEIGHT)
    (46, 204, 113).

(** [create_obstacle], given the two random draws: [x_pos] is what
    [random.randint(0, WIDTH - OBSTACLE_SIZE)] returns and [pick] the
    index [random.choice] takes in its list of three colours. *)
Definition obstacle_colors : list (Z * Z * Z) :=
  [RED_IMMUNE; (255, 255, 255); (255, 255, 255)].

Definition create_obstacle (x_pos : Z) (pick : nat) : Entity :=
  mkEntity (mkRect x_pos (- OBSTACLE_SIZE) OBSTACLE_SIZE OBSTACLE_SIZE)
    (nth pick obstacle_colors (255, 255, 255)).

(** The player rectangle of [reset_game]. *)
Definition start_player : Rect :=
  mkRect (WIDTH / 2 - PLAYER_SIZE / 2) (HEIGHT - PLAYER_SIZE - 20)
    PLAYER_SIZE PLAYER_SIZE.

(** Lines 191-199 on the player rectangle: [go_left] is
    [keys[K_LEFT] or keys[K_a] or serial_controller.left], [go_right] the
    same for the right; assigning [x] or [y] moves the rectangle and keeps
    its size. *)
Definition steer (go_left go_right : bool) (player_rect : Rect) : Rect :=
  let x1 := if go_left then x player_rect - PLAYER_SPEED
            else x player_rect in
  let x2 := if go_right then x1 + PLAYER_SPEED else x1 in
  mkRect (clamp x2 0 (WIDTH - PLAYER_SIZE))
    (clamp (y player_rect) 0 (HEIGHT - PLAYER_SIZE))
    (w player_rect) (h player_rect).

(** A rectangle that lies on the screen. *)
Definition on_screen (r : Rect) : Prop :=
  0 <= w r /\ 0 <= h r
  /\ 0 <= x r /\ x r + w r <= WIDTH /\ 0 <= y r /\ y r + h r <= HEIGHT.

End Game.

(* ===================================================================== *)
(** * Firmware side: [SimpleButton] of [shooting_game/thonnygame.py]    *)
(* ===================================================================== *)

Module Firmware.

Local Open Scope Z_scope.

Definition DEBOUNCE_MS : Z := 25.
Definition HELD_PRINT_INTERVAL_MS : Z := 200.
Definition POLL_MS : Z := 10.

(** [time.ticks_ms()] counts milliseconds modulo [TICKS_PERIOD], and
    [time.ticks_diff(a, b)] is the signed difference of two such values,
    in [-TICKS_PERIOD/2, TICKS_PERIOD/2). *)
Definition TICKS_PERIOD : Z := 2 ^ 30.

Definition ticks_ms (ms_since_boot : Z) : Z := ms_since_boot mod TICKS_PERIOD.

Definition ticks_diff (a b : Z) : Z :=
  Z.land (a - b + TICKS_PERIOD / 2) (TICKS_PERIOD - 1) - TICKS_PERIOD / 2.

(** [Pin.value()] is 0 or 1: [false] is 0, [true] is 1.  The pins are
    pulled up, so 0 is a pressed button. *)
Definition level : Type := bool.
Definition is_zero (l : level) : bool := negb l.

(** ["{} KW".format(name)]. *)
Definition fmt (name kw : string) : string := (name ++ " " ++ kw)%string.

Record SimpleButton : Type := mkSimpleButton {
  name : string;
  pin : Z;
  last_raw : level;
  last_change : Z;
  stable : level;
  pressed_time : option Z;
  last_held_print : option Z
}.

(** [__init__], given the level the pin reads and the value of [now_ms()]. *)
Definition __init__ (nm : string) (pin_num : Z) (raw : level) (now : Z)
  : SimpleButton :=
  mkSimpleButton nm pin_num raw now raw None None.

(** Lines 38-41: a changed raw level restarts the debounce timer. *)
Definition track_raw (current_time : Z) (raw : level) (self : SimpleButton)
  : SimpleButton :=
  if negb (Bool.eqb raw (last_raw self))
  then mkSimpleButton (name self) (pin self) raw current_time
         (stable self) (pressed_time self) (last_held_print self)
  else self.

(** Lines 43-63: commit a transition of the stable level; the messages
    sent are returned with the button. *)
Definition commit (current_time : Z) (raw : level) (self : SimpleButton)
  : SimpleButton * list string :=
  if DEBOUNCE_MS <=? ticks_diff current_time (last_change self) then
    if negb (Bool.eqb raw (stable self)) then
      if is_zero raw
      then (mkSimpleButton (name self) (pin self) (last_raw self)
              (last_change self) raw (Some current_time) (Some current_time),
            [fmt (name self) "DOWN"])
      else (mkSimpleButton (name self) (pin self) (last_raw self)
              (last_change self) raw None None,
            [fmt (name self) "UP"])
    else (self, [])
  else (self, []).

(** Lines 65-70: the HELD heartbeat.  [None] stands for the [TypeError] of
    [ticks_diff(current_time, None)]. *)
Definition heartbeat (current_time : Z) (self : SimpleButton)
  : option (SimpleButton * list string) :=
  if is_zero (stable self) then
    match pressed_time self with
    | None => Some (self, [])
    | Some _ =>
        match last_held_print self with
        | None => None
        | Some lh =>
            if HELD_PRINT_INTERVAL_MS <=? ticks_diff current_time lh
            then Some (mkSimpleButton (name self) (pin self) (last_raw self)
                         (last_change self) (stable self) (pressed_time self)
                         (Some current_time),
                       [fmt (name self) "HELD"])
            else Some (self, [])
        end
    end
  else Some (self, []).

(** [update], given the level [self.pin.value()] reads: the button
    afterwards and the messages sent, in order. *)
Definition update (current_time : Z) (raw : level) (self : SimpleButton)
  : option (SimpleButton * list string) :=
  let self1 := track_raw current_time raw self in
  let (self2, out2) := commit current_time raw self1 in
  match heartbeat current_time self2 with
  | None => None
  | Some (self3, out3) => Some (self3, out2 ++ out3)
  end.

(** One poll of the main loop for one button: the time [t] read from
    [now_ms()] and the level the pin reads. *)
Definition sample : Type := Z * level.

(** Successive polls: the button at the end and the messages sent, each
    with the time of the poll that sent it. *)
Fixpoint run (ss : list sample) (self : SimpleButton)
  : option (SimpleButton * list (Z * string)) :=
  match ss with
  | [] => Some (self, [])
  | (t, raw) :: ss' =>
      match update t raw self with
      | None => None
      | Some (self', out) =>
          match run ss' self' with
          | None => None
          | Some (self'', tr) => Some (self'', map (pair t) out ++ tr)
          end
      end
  end.

(** The time at which the sampled raw level last changed, and the level
    since then: [t0] and [r0] are the time and level at construction. *)
Fixpoint steady_since (t0 : Z) (r0 : level) (ss : list sample) : Z * level :=
  match ss with
  | [] => (t0, r0)
  | (t, r) :: ss' =>
      if Bool.eqb r r0 then steady_since t0 r0 ss' else steady_since t r ss'
  end.

(** The messages of a trace that announce a transition (DOWN or UP). *)
Definition is_transition (nm : string) (m : string) : bool :=
  bool_decide (m = fmt nm "DOWN") || bool_decide (m = fmt nm "UP").

Definition transitions (nm : string) (tr : list (Z * string))
  : list (Z * string) :=
  filter (fun e => is_transition nm (snd e) = true) tr.

(** No two neighbours of a list are equal. *)
Fixpoint no_repeat (l : list string) : Prop :=
  match l with
  | [] => True
  | a :: l' =>
      match l' with
      | [] => True
      | b :: _ => a <> b /\ no_repeat l'
      end
  end.

(** The two optional times are set together and cleared together, and
    they are set only while the stable level is 0. *)
Definition well_formed (self : SimpleButton) : Prop :=
  match pressed_time self, last_held_print self with
  | None, None => True
  | Some _, Some _ => stable self = false
  | _, _ => False
  end.

(** The two conditions of [update] written on the button before the
    poll: the poll commits a transition; the heartbeat fires. *)
Definition commits (t : Z) (raw : level) (self : SimpleButton) : bool :=
  (DEBOUNCE_MS
   <=? ticks_diff t
         (if Bool.eqb raw (last_raw self) then last_change self else t))
  && negb (Bool.eqb raw (stable self)).

Definition beats (t : Z) (raw : level) (self : SimpleButton) : bool :=
  negb (commits t raw self) && is_zero (stable self)
  && match last_held_print self with
     | Some lh => HELD_PRINT_INTERVAL_MS <=? ticks_diff t lh
     | None => false
     end.

(** For how long the raw level has been the same at the poll [(t, r)]
    that follows the polls [ss], as [ticks_diff] measures it. *)
Definition quiet_for (t0 : Z) (r0 : level) (ss : list sample)
    (t : Z) (r : level) : Z :=
  ticks_diff t (fst (steady_since t0 r0 (ss ++ [(t, r)]))).

(** A sequence of polls in which the raw level never stays the same for
    the debounce window. *)
Definition bouncing (t0 : Z) (r0 : level) (ss : list sample) : Prop :=
  forall p t r q,
    ss = p ++ (t, r) :: q -> quiet_for t0 r0 p t r < DEBOUNCE_MS.

(** Polls 10 ms apart for running the model: a contact that bounces,
    and a press that is held and released. *)
Definition demo_bounce : list sample :=
  [(10, false); (20, false); (30, true); (40, false); (50, false);
   (60, true)].

Definition demo_press : list sample :=
  map (fun i => (10 * Z.of_nat i, false)) (seq 1 30)
  ++ map (fun i => (10 * Z.of_nat i, true)) (seq 31 5).

(** The last message of a trace, when it is a DOWN or a HELD: its time. *)
Definition last_announce (nm : string) (tr : list (Z * string)) : option Z :=
  match last tr with
  | Some (t, m) =>
      if bool_decide (m = fmt nm "DOWN") || bool_decide (m = fmt nm "HELD")
      then Some t else None
  | None => None
  end.



(** The three messages of a button. *)
Definition button_message (nm : string) (m : string) : Prop :=
  m = fmt nm "DOWN" \/ m = fmt nm "UP" \/ m = fmt nm "HELD".

End Firmware.

(* ===================================================================== *)
(** * Facts about the text operations                                   *)
(* ===================================================================== *)

Module TextFacts.

Import Text.
Local Open Scope N_scope.

Ltac split_cmp :=
  repeat match goal with
    | |- context [?a <=? ?b] => destruct (N.leb_spec a b)
    | |- context [?a <? ?b] => destruct (N.ltb_spec a b)
    end; simpl; try lia.

Lemma upper_cp_same_letter ut a b :
  same_letter a b -> upper_cp ut a = upper_cp ut b.
Proof.
  unfold same_letter, is_ascii_upper.
  intros [-> | [[Ha ->] | [Hb ->]]]; [reflexivity | |].
  - apply andb_true_iff in Ha as [H1 H2].
    apply N.leb_le in H1, H2.
    unfold upper_cp, is_ascii_lower. split_cmp. f_equal. lia.
  - apply andb_true_iff in Hb as [H1 H2].
    apply N.leb_le in H1, H2.
    unfold upper_cp, is_ascii_lower. split_cmp. f_equal. lia.
Qed.

Lemma upper_case_variant ut l1 l2 :
  case_variant l1 l2 -> upper ut l1 = upper ut l2.
Proof.
  induction 1 as [| a b l1 l2 Hab _ IH]; [reflexivity |].
  unfold upper in *. simpl. rewrite IH.
  now rewrite (upper_cp_same_letter ut a b Hab).
Qed.

Lemma case_variant_nil_iff l1 l2 :
  case_variant l1 l2 -> (l1 = [] <-> l2 = []).
Proof. destruct 1; split; congruence. Qed.

Lemma eqb_true a b : eqb a b = true <-> a = b.
Proof. unfold eqb. apply bool_decide_eq_true. Qed.

Lemma eqb_false a b : eqb a b = false <-> a <> b.
Proof. unfold eqb. apply bool_decide_eq_false. Qed.

End TextFacts.

(* ===================================================================== *)
(** * The serial controller: reassembly, parsing, folding               *)
(* ===================================================================== *)

Module HostProofs.

Import Host.

(** ** The line handler touches the three flags only *)

Lemma handle_line_set_buffer ut l b s :
  _handle_line ut l (set_buffer b s)
  = option_map (set_buffer b) (_handle_line ut l s).
Proof.
  unfold _handle_line.
  destruct l; [reflexivity |].
  destruct (Text.split _) as [| nm more]; [reflexivity |].
  repeat match goal with
    | |- context [if ?c then _ else _] => destruct c
    end; reflexivity.
Qed.

Lemma handle_line_frame ut l s s' :
  _handle_line ut l s = Some s' ->
  buffer s' = buffer s /\ conn s' = conn s
  /\ reported_error s' = reported_error s
  /\ port s' = port s /\ baud s' = baud s.
Proof.
  unfold _handle_line.
  destruct l; [intros [= <-]; auto |].
  destruct (Text.split _) as [| nm more]; [discriminate |].
  repeat match goal with
    | |- context [if ?c then _ else _] => destruct c
    end; intros [= <-]; auto.
Qed.

Lemma handle_lines_app ut l1 l2 s :
  handle_lines ut (l1 ++ l2) s
  = match handle_lines ut l1 s with
    | None => None
    | Some s' => handle_lines ut l2 s'
    end.
Proof.
  revert s. induction l1 as [| l l1 IH]; intros s; simpl; [reflexivity |].
  destruct (_handle_line ut l s); [apply IH | reflexivity].
Qed.

Lemma handle_lines_set_buffer ut ls b s :
  handle_lines ut ls (set_buffer b s)
  = option_map (set_buffer b) (handle_lines ut ls s).
Proof.
  revert s. induction ls as [| l ls IH]; intros s; simpl; [reflexivity |].
  rewrite handle_line_set_buffer.
  destruct (_handle_line ut l s); simpl; [apply IH | reflexivity].
Qed.

Lemma handle_lines_frame ut ls s s' :
  handle_lines ut ls s = Some s' ->
  buffer s' = buffer s /\ conn s' = conn s.
Proof.
  revert s. induction ls as [| l ls IH]; intros s; simpl.
  - intros [= <-]; auto.
  - destruct (_handle_line ut l s) as [s1 |] eqn:E; [| discriminate].
    intros H. apply IH in H as [H1 H2].
    apply handle_line_frame in E as (E1 & E2 & _).
    split; congruence.
Qed.

(** ** Splitting at newlines *)

Lemma split_newline_shorter buf line rest :
  split_newline buf = Some (line, rest) ->
  (length rest < length buf)%nat.
Proof.
  revert line. induction buf as [| b r IH]; intros line; simpl;
    [discriminate |].
  destruct (Byte.eqb b NL).
  - intros [= _ <-]. lia.
  - destruct (split_newline r) as [[l0 r0] |]; [| discriminate].
    intros [= _ <-]. specialize (IH l0 eq_refl). lia.
Qed.

Lemma split_newline_app line rest :
  ~ In NL line ->
  split_newline (line ++ NL :: rest) = Some (line, rest).
Proof.
  induction line as [| b l IH]; intros Hnl; simpl; [reflexivity |].
  destruct (Byte.eqb b NL) eqn:E.
  - apply Byte.byte_dec_bl in E. subst b. exfalso. apply Hnl. now left.
  - rewrite IH; [reflexivity |]. intros H. apply Hnl. now right.
Qed.

(** [complete_lines] unfolded one byte at a time, without the
    accumulator. *)
Lemma complete_lines_acc cur buf :
  complete_lines cur buf
  = match complete_lines [] buf with
    | ([], rest) => ([], rev cur ++ rest)
    | (l :: ls, rest) => ((rev cur ++ l) :: ls, rest)
    end.
Proof.
  revert cur. induction buf as [| b r IH]; intros cur; simpl.
  - now rewrite app_nil_r.
  - destruct (Byte.eqb b NL).
    + destruct (complete_lines [] r) as [ls rest]. now rewrite app_nil_r.
    + rewrite (IH (b :: cur)), (IH [b]).
      destruct (complete_lines [] r) as [[| l ls] rest]; simpl;
        now rewrite <- app_assoc.
Qed.

Lemma complete_lines_cons b r :
  complete_lines [] (b :: r)
  = let (ls, rest) := complete_lines [] r in
    if Byte.eqb b NL then ([] :: ls, rest)
    else match ls with
         | [] => ([], b :: rest)
         | l :: ls' => ((b :: l) :: ls', rest)
         end.
Proof.
  simpl. destruct (Byte.eqb b NL).
  - now destruct (complete_lines [] r).
  - rewrite complete_lines_acc. now destruct (complete_lines [] r) as [[|] ?].
Qed.

Lemma complete_lines_split buf :
  complete_lines [] buf
  = match split_newline buf with
    | None => ([], buf)
    | Some (line, rest) =>
        let (ls, rest') := complete_lines [] rest in (line :: ls, rest')
    end.
Proof.
  induction buf as [| b r IH]; [reflexivity |].
  rewrite complete_lines_cons. cbn [split_newline].
  destruct (Byte.eqb b NL).
  - now destruct (complete_lines [] r).
  - rewrite IH. destruct (split_newline r) as [[l0 r0] |]; [| reflexivity].
    now destruct (complete_lines [] r0).
Qed.

(** Reading [a ++ b] is reading [a], then reading [b] after what [a]
    left. *)
Lemma complete_lines_app a b :
  complete_lines [] (a ++ b)
  = let (l1, r1) := complete_lines [] a in
    let (l2, r2) := complete_lines [] (r1 ++ b) in
    (l1 ++ l2, r2).
Proof.
  induction a as [| c a IH].
  - simpl. now destruct (complete_lines [] b).
  - rewrite <- app_comm_cons, !complete_lines_cons, IH.
    destruct (complete_lines [] a) as [l1 r1].
    destruct (Byte.eqb c NL) eqn:E.
    + now destruct (complete_lines [] (r1 ++ b)).
    + destruct l1 as [| l l1].
      * change ((c :: r1) ++ b) with (c :: r1 ++ b).
        rewrite complete_lines_cons, E.
        now destruct (complete_lines [] (r1 ++ b)) as [[|] ?].
      * now destruct (complete_lines [] (r1 ++ b)).
Qed.

Lemma complete_lines_rest_no_newline buf :
  split_newline (snd (complete_lines [] buf)) = None.
Proof.
  induction buf as [| b r IH]; [reflexivity |].
  rewrite complete_lines_cons.
  destruct (complete_lines [] r) as [ls rest]. simpl in IH.
  destruct (Byte.eqb b NL) eqn:E; [exact IH |].
  destruct ls; simpl; [now rewrite E, IH | exact IH].
Qed.

(** ** The loop of [update] *)

Lemma set_buffer_same s : set_buffer (buffer s) s = s.
Proof. now destruct s. Qed.

(** With at least [length buffer] rounds allowed, the loop hands every
    complete line of the buffer to [_handle_line], in order, and leaves
    the partial line in the buffer. *)
Lemma read_lines_spec ut n s :
  (length (buffer s) <= n)%nat ->
  read_lines ut n s
  = let (ls, rest) := complete_lines [] (buffer s) in
    handle_lines ut (map text_of ls) (set_buffer rest s).
Proof.
  revert s. induction n as [| n IH]; intros s Hn.
  - destruct (buffer s) eqn:E; [| simpl in Hn; lia].
    simpl. now rewrite <- E, set_buffer_same.
  - rewrite complete_lines_split. cbn [read_lines].
    destruct (split_newline (buffer s)) as [[line rest] |] eqn:E.
    + apply split_newline_shorter in E.
      rewrite handle_line_set_buffer. fold (text_of line).
      destruct (_handle_line ut (text_of line) s) as [s1 |] eqn:E1.
      * cbn [option_map].
        rewrite (IH (set_buffer rest s1)) by (cbn [buffer set_buffer]; lia).
        cbn [buffer set_buffer].
        destruct (complete_lines [] rest) as [ls rest'].
        cbn [map handle_lines]. now rewrite handle_line_set_buffer, E1.
      * destruct (complete_lines [] rest) as [ls rest'].
        cbn [option_map map handle_lines].
        now rewrite handle_line_set_buffer, E1.
    + simpl. now rewrite set_buffer_same.
Qed.

(** The bound on the rounds is never what ends the loop. *)
Lemma read_lines_enough ut n m s :
  (length (buffer s) <= n)%nat -> (length (buffer s) <= m)%nat ->
  read_lines ut n s = read_lines ut m s.
Proof. intros Hn Hm. now rewrite !read_lines_spec. Qed.

Lemma read_lines_exit ut n s s' :
  (length (buffer s) <= n)%nat ->
  read_lines ut n s = Some s' ->
  split_newline (buffer s') = None.
Proof.
  intros Hn. rewrite read_lines_spec by assumption.
  pose proof (complete_lines_rest_no_newline (buffer s)) as Hr.
  destruct (complete_lines [] (buffer s)) as [ls rest]. simpl in Hr.
  rewrite handle_lines_set_buffer.
  destruct (handle_lines ut (map text_of ls) s); [| discriminate].
  now intros [= <-].
Qed.

Lemma update_spec ut s data :
  conn s <> None -> data <> [] ->
  update ut (ReadOk data) s
  = let (ls, rest) := complete_lines [] (buffer s ++ data) in
    handle_lines ut (map text_of ls) (set_buffer rest s).
Proof.
  intros Hc Hd. unfold update.
  destruct (conn s); [| congruence].
  destruct data as [| b data]; [congruence |].
  rewrite read_lines_spec by (cbn [buffer set_buffer]; lia).
  cbn [buffer set_buffer].
  now destruct (complete_lines [] (buffer s ++ b :: data)).
Qed.

Lemma update_empty ut s : update ut (ReadOk []) s = Some s.
Proof. unfold update. now destruct (conn s). Qed.

(** Successive polls fold exactly the lines of [dispatched], in order. *)
Lemma polls_dispatched ut chunks s :
  conn s <> None ->
  polls ut (map ReadOk chunks) s
  = handle_lines ut (fst (dispatched chunks (buffer s)))
      (set_buffer (snd (dispatched chunks (buffer s))) s).
Proof.
  revert s. induction chunks as [| c cs IH]; intros s Hc.
  - simpl. now rewrite set_buffer_same.
  - destruct c as [| b c].
    + cbn [map polls]. rewrite update_empty. now apply IH.
    + cbn [map polls dispatched].
      rewrite update_spec by (assumption || discriminate).
      destruct (complete_lines [] (buffer s ++ b :: c)) as [ls rest].
      destruct (dispatched cs rest) as [ls' rest'] eqn:E'.
      cbn [fst snd].
      rewrite handle_lines_app, !handle_lines_set_buffer.
      destruct (handle_lines ut (map text_of ls) s) as [s0 |] eqn:E0;
        [| reflexivity].
      cbn [option_map]. apply handle_lines_frame in E0 as [_ E0].
      rewrite IH by (cbn [conn set_buffer]; congruence).
      cbn [buffer set_buffer]. rewrite E'. cbn [fst snd].
      rewrite !handle_lines_set_buffer.
      now destruct (handle_lines ut ls' s0).
Qed.

(** What a run of polls dispatches depends on the concatenation of the
    chunks only. *)
Lemma dispatched_concat chunks buf :
  dispatched chunks buf
  = match concat chunks with
    | [] => ([], buf)
    | _ :: _ =>
        let (ls, rest) := complete_lines [] (buf ++ concat chunks) in
        (map text_of ls, rest)
    end.
Proof.
  revert buf. induction chunks as [| c cs IH]; intros buf; [reflexivity |].
  destruct c as [| b c]; [apply IH |].
  cbn [dispatched concat app].
  change (b :: c ++ concat cs) with ((b :: c) ++ concat cs).
  rewrite app_assoc, (complete_lines_app (buf ++ b :: c) (concat cs)).
  pose proof (complete_lines_rest_no_newline (buf ++ b :: c)) as Hr.
  destruct (complete_lines [] (buf ++ b :: c)) as [ls rest].
  cbn [snd] in Hr. rewrite IH.
  destruct (concat cs) as [| b' d].
  - rewrite !app_nil_r, complete_lines_split, Hr.
    now rewrite !app_nil_r.
  - destruct (complete_lines [] (rest ++ b' :: d)) as [l2 r2].
    now rewrite map_app.
Qed.

Lemma dispatched_one_chunk chunks buf :
  dispatched chunks buf = dispatched [concat chunks] buf.
Proof.
  rewrite dispatched_concat. unfold dispatched.
  destruct (concat chunks) as [| b d]; [reflexivity |].
  destruct (complete_lines [] (buf ++ b :: d)) as [ls rest].
  now rewrite app_nil_r.
Qed.

(** ** The claims about the serial controller *)

(** C1.  Chunk invariance of [SerialController.update]: however a byte
    stream is cut into the chunks that successive polls read (a cut inside
    a line, several lines in a chunk, empty chunks), the polls hand to
    [_handle_line] exactly the lines of [dispatched], in order; that
    sequence of lines and the partial line left in the buffer are those of
    the same bytes read as one chunk; and the controller after the polls
    (flags and buffer), or the exception that ended them, is the one a
    single poll reading all the bytes gives. *)
Theorem update_chunk_invariant ut chunks self :
  conn self <> None ->
  polls ut (map ReadOk chunks) self
  = handle_lines ut (fst (dispatched chunks (buffer self)))
      (set_buffer (snd (dispatched chunks (buffer self))) self)
  /\ dispatched chunks (buffer self)
     = dispatched [concat chunks] (buffer self)
  /\ polls ut (map ReadOk chunks) self
     = update ut (ReadOk (concat chunks)) self.
Proof.
  intros Hc. split; [now apply polls_dispatched |].
  split; [apply dispatched_one_chunk |].
  rewrite polls_dispatched, dispatched_one_chunk by assumption.
  rewrite <- (polls_dispatched ut [concat chunks]) by assumption.
  cbn [map polls].
  now destruct (update ut (ReadOk (concat chunks)) self).
Qed.

Lemma update_chunk_invariant_witness :
  conn (__init__ Opened "COM3" 115200) <> None
  /\ polls plain_table (map ReadOk scenario_chunks)
       (__init__ Opened "COM3" 115200)
     = update plain_table (ReadOk (concat scenario_chunks))
         (__init__ Opened "COM3" 115200).
Proof.
  split; [discriminate |].
  apply (update_chunk_invariant plain_table scenario_chunks
           (__init__ Opened "COM3" 115200)).
  discriminate.
Defined.

(** C4.  [consume_shot] returns the shoot flag and clears it, touching
    nothing else; after one "C DOWN" line two calls in a row return true
    and then false. *)
Theorem consume_shot_one_shot ut self :
  fst (consume_shot self) = shoot self
  /\ snd (consume_shot self) = set_shoot false self
  /\ shoot (snd (consume_shot self)) = false
  /\ exists self1,
       _handle_line ut (Text.lit "C DOWN") self = Some self1
       /\ fst (consume_shot self1) = true
       /\ fst (consume_shot (snd (consume_shot self1))) = false.
Proof.
  repeat split.
  - unfold consume_shot. now destruct (shoot self).
  - unfold consume_shot. destruct self as [p b c bf l r [] e]; reflexivity.
  - unfold consume_shot. destruct (shoot self) eqn:E; [reflexivity | exact E].
  - exists (set_shoot true self). repeat split.
Qed.

(** C5.  On channel C a line whose state is DOWN or HELD leaves the
    shoot flag true, whatever it was, and a line whose state is UP leaves
    it as it was: no release clears it.  In both cases [left], [right]
    and every other field of the controller keep their values, and after
    an UP the controller is the one before. *)
Theorem shoot_flag_press_triggered ut line kw more self :
  Text.split (Text.upper ut line) = Text.lit "C" :: kw :: more ->
  kw = Text.lit "DOWN" \/ kw = Text.lit "HELD" \/ kw = Text.lit "UP" ->
  exists self',
    _handle_line ut line self = Some self'
    /\ shoot self'
       = (if Text.eqb kw (Text.lit "UP") then shoot self else true)
    /\ left self' = left self
    /\ right self' = right self
    /\ buffer self' = buffer self
    /\ conn self' = conn self
    /\ reported_error self' = reported_error self
    /\ port self' = port self
    /\ baud self' = baud self
    /\ (kw = Text.lit "UP" -> self' = self).
Proof.
  intros Hs Hk. unfold _handle_line.
  destruct line as [| c line]; [discriminate |].
  rewrite Hs.
  destruct Hk as [-> | [-> | ->]]; eexists; (split; [reflexivity |]);
    cbn [shoot left right buffer conn reported_error port baud set_shoot];
    repeat split; discriminate.
Qed.

Lemma shoot_flag_press_triggered_witness :
  (exists s',
     _handle_line plain_table (Text.lit "c held")
       (__init__ Opened "COM3" 115200) = Some s'
     /\ shoot s' = true /\ left s' = false /\ right s' = false)
  /\ (exists s',
        _handle_line plain_table (Text.lit "C UP")
          (set_shoot true (set_left true (__init__ Opened "COM3" 115200)))
        = Some s'
        /\ shoot s' = true /\ left s' = true /\ right s' = false).
Proof.
  split.
  - destruct (shoot_flag_press_triggered plain_table (Text.lit "c held")
                (Text.lit "HELD") [] (__init__ Opened "COM3" 115200))
      as (s' & H1 & H2 & H3 & H4 & _);
      [reflexivity | right; left; reflexivity |].
    exists s'. repeat split; assumption.
  - destruct (shoot_flag_press_triggered plain_table (Text.lit "C UP")
                (Text.lit "UP") []
                (set_shoot true
                   (set_left true (__init__ Opened "COM3" 115200))))
      as (s' & H1 & H2 & H3 & H4 & _);
      [reflexivity | right; right; reflexivity |].
    exists s'. repeat split; assumption.
Defined.

Lemma handle_line_not_an_event ut line s :
  not_an_event ut line -> _handle_line ut line s = Some s.
Proof.
  intros [-> | [[nm H] | (nm & more & H & HA & HB & HC)]];
    [reflexivity | |]; unfold _handle_line;
    (destruct line as [| c line]; [reflexivity |]); rewrite H.
  - cbv zeta.
    rewrite !(proj2 (TextFacts.eqb_false [] _)) by discriminate.
    cbn [orb].
    repeat match goal with
      | |- context [if ?c then _ else _] => destruct c
      end; reflexivity.
  - apply TextFacts.eqb_false in HA, HB, HC. now rewrite HA, HB, HC.
Qed.

(** C6.  A line that is empty, has no state token, or names no known
    channel changes nothing and raises nothing: [_handle_line] returns
    the controller as it was; among other lines it is as if it were not
    there; and [update] goes on with the lines that follow it in the
    buffer as if they had arrived alone. *)
Theorem unrecognised_line_ignored ut line self :
  not_an_event ut line ->
  _handle_line ut line self = Some self
  /\ (forall before after,
        handle_lines ut (before ++ line :: after) self
        = handle_lines ut (before ++ after) self)
  /\ (forall raw more,
        text_of raw = line -> ~ In NL raw ->
        conn self <> None -> buffer self = [] ->
        update ut (ReadOk (raw ++ NL :: more)) self
        = update ut (ReadOk more) self).
Proof.
  intros Hi. split; [now apply handle_line_not_an_event |]. split.
  - intros before after. rewrite !handle_lines_app.
    destruct (handle_lines ut before self) as [s1 |]; [| reflexivity].
    cbn [handle_lines]. now rewrite handle_line_not_an_event.
  - intros raw more <- Hnl Hc Hb.
    rewrite update_spec by (assumption || now destruct raw).
    rewrite Hb. cbn [app].
    rewrite complete_lines_split, split_newline_app by assumption.
    destruct more as [| b more].
    + cbn [complete_lines rev map handle_lines].
      rewrite handle_line_set_buffer, handle_line_not_an_event
        by assumption.
      rewrite update_empty. cbn [option_map].
      now rewrite <- Hb, set_buffer_same.
    + rewrite update_spec by (assumption || discriminate).
      rewrite Hb. cbn [app].
      destruct (complete_lines [] (b :: more)) as [ls rest].
      cbn [map handle_lines].
      now rewrite handle_line_set_buffer, handle_line_not_an_event
        by assumption.
Qed.

Lemma unrecognised_line_ignored_witness :
  _handle_line plain_table (Text.lit "X DOWN")
    (set_left true (__init__ Opened "COM3" 115200))
  = Some (set_left true (__init__ Opened "COM3" 115200))
  /\ update plain_table
       (ReadOk (blit "X DOWN" ++ NL :: blit "B DOWN" ++ [NL]))
       (set_left true (__init__ Opened "COM3" 115200))
     = update plain_table (ReadOk (blit "B DOWN" ++ [NL]))
         (set_left true (__init__ Opened "COM3" 115200)).
Proof.
  assert (H : not_an_event plain_table (Text.lit "X DOWN")).
  { right; right. exists (Text.lit "X"), [Text.lit "DOWN"].
    repeat split; [discriminate ..]. }
  pose proof (unrecognised_line_ignored plain_table (Text.lit "X DOWN")
                (set_left true (__init__ Opened "COM3" 115200)) H)
    as (H1 & _ & H3).
  split; [exact H1 |].
  apply (H3 (blit "X DOWN")); [reflexivity | | discriminate | reflexivity].
  cbv. intuition discriminate.
Defined.

(** C7.  When opening the port raises, the constructor returns a
    controller without a connection, and whatever the game loop then
    calls, in whatever order and whatever the transport would have
    delivered, nothing raises, every [consume_shot] returns false and the
    controller stays as constructed, with [left] and [right] false. *)
Theorem failed_open_no_input ut p b cs :
  conn (__init__ OpenRaises p b) = None
  /\ left (__init__ OpenRaises p b) = false
  /\ right (__init__ OpenRaises p b) = false
  /\ calls ut cs (__init__ OpenRaises p b)
     = Some (repeat false (consume_calls cs), __init__ OpenRaises p b).
Proof.
  repeat split.
  induction cs as [| [rd |] cs IH]; [reflexivity | exact IH |].
  cbn [calls consume_calls repeat].
  change (consume_shot (__init__ OpenRaises p b))
    with (false, __init__ OpenRaises p b).
  cbv beta iota. now rewrite IH.
Qed.

(** C8.  Parsing ignores the case of the letters: two lines that differ
    in the case of ASCII letters only are handled alike, from every
    controller state; so are "a down" and "A DOWN", and every spelling of
    a channel name and a state keyword. *)
Theorem handle_line_case_insensitive ut l1 l2 self :
  Text.case_variant l1 l2 ->
  _handle_line ut l1 self = _handle_line ut l2 self.
Proof.
  intros H. unfold _handle_line.
  rewrite (TextFacts.upper_case_variant ut l1 l2 H).
  destruct H; reflexivity.
Qed.

Lemma handle_line_case_insensitive_witness :
  Text.case_variant (Text.lit "a down") (Text.lit "A DOWN")
  /\ _handle_line plain_table (Text.lit "a down")
       (__init__ Opened "COM3" 115200)
     = _handle_line plain_table (Text.lit "A DOWN")
         (__init__ Opened "COM3" 115200).
Proof.
  assert (H : Text.case_variant (Text.lit "a down") (Text.lit "A DOWN")).
  { unfold Text.case_variant.
    change (Text.lit "a down") with [97; 32; 100; 111; 119; 110]%N.
    change (Text.lit "A DOWN") with [65; 32; 68; 79; 87; 78]%N.
    repeat (constructor;
            [first [ left; reflexivity
                   | right; right; split; reflexivity ] |]).
    constructor. }
  split; [exact H |].
  apply (handle_line_case_insensitive plain_table _ _ _ H).
Defined.

End HostProofs.

(* ===================================================================== *)
(** * The collision pass: immune obstacles                              *)
(* ===================================================================== *)

Module GameProofs.

Import Game.
Local Open Scope Z_scope.

Lemma is_immune_true o : is_immune o = true <-> color o = RED_IMMUNE.
Proof. unfold is_immune. apply bool_decide_eq_true. Qed.

(** The inner loop never breaks for an immune obstacle. *)
Lemma bullet_hit_immune o i bullets :
  is_immune o = true -> bullet_hit o i bullets = None.
Proof.
  intros Ho. revert i.
  induction bullets as [| b bs IH]; intros i; simpl; [reflexivity |].
  rewrite Ho. apply IH.
Qed.

(** When it breaks, the obstacle is not immune and overlaps the bullet
    at the index that is recorded. *)
Lemma bullet_hit_Some o i bullets j :
  bullet_hit o i bullets = Some j ->
  is_immune o = false
  /\ (i <= j)%nat
  /\ exists b, bullets !! (j - i)%nat = Some b
               /\ colliderect (rect o) (rect b) = true.
Proof.
  revert i. induction bullets as [| b bs IH]; intros i; simpl;
    [discriminate |].
  destruct (is_immune o) eqn:Ho.
  - now rewrite bullet_hit_immune.
  - destruct (colliderect (rect o) (rect b)) eqn:Hc.
    + intros [= <-]. repeat split; [lia |].
      exists b. now rewrite Nat.sub_diag.
    + intros H. apply IH in H as (_ & Hij & b' & Hb & Hc').
      repeat split; [lia |]. exists b'. split; [| exact Hc'].
      replace (j - i)%nat with (S (j - S i)) by lia. exact Hb.
Qed.

Section PassFacts.

Context {Score : Type}.
Variable add_one : Score -> Score.

(** In a pass that does not end the game, what had survived still has,
    and every immune obstacle that has not left the screen survives. *)
Lemma resolve_keeps player bullets obstacles (st : pass) :
  game_over (resolve add_one player bullets obstacles st) = false ->
  (forall e, In e (survived st) ->
             In e (survived (resolve add_one player bullets obstacles st)))
  /\ (forall o, In o obstacles -> is_immune o = true ->
                y (rect o) <= HEIGHT ->
                In o (survived
                        (resolve add_one player bullets obstacles st))).
Proof.
  revert st. induction obstacles as [| o0 os IH]; intros st; simpl.
  - intros _. split; [auto | intros o []].
  - destruct (bullet_hit o0 0 bullets) as [i |] eqn:Hh.
    + intros Hg. destruct (IH _ Hg) as [IH1 IH2].
      split; [exact IH1 |].
      intros o [<- | Ho] Him Hy; [| now apply IH2].
      now rewrite bullet_hit_immune in Hh.
    + destruct (colliderect (rect o0) player); [discriminate |].
      destruct (HEIGHT <? y (rect o0)) eqn:Hy0.
      * intros Hg. destruct (IH _ Hg) as [IH1 IH2].
        split; [exact IH1 |].
        intros o [<- | Ho] Him Hy; [| now apply IH2].
        apply Z.ltb_lt in Hy0. lia.
      * intros Hg. destruct (IH _ Hg) as [IH1 IH2].
        split.
        -- intros e He. apply IH1. cbn [survived].
           apply in_or_app. now left.
        -- intros o [<- | Ho] Him Hy; [| now apply IH2].
           apply IH1. cbn [survived]. apply in_or_app. right. now left.
Qed.

(** A pass over immune obstacles only does not look at the bullets. *)
Lemma resolve_all_immune player bullets obstacles (st : pass) :
  Forall (fun o => is_immune o = true) obstacles ->
  resolve add_one player bullets obstacles st
  = resolve add_one player [] obstacles st
  /\ bullets_to_remove (resolve add_one player bullets obstacles st)
     = bullets_to_remove st.
Proof.
  intros H. revert st.
  induction H as [| o os Ho _ IH]; intros st; simpl; [auto |].
  rewrite bullet_hit_immune by assumption.
  destruct (colliderect (rect o) player); [auto |].
  destruct (HEIGHT <? y (rect o));
    (split; [apply IH | now rewrite (proj2 (IH _))]).
Qed.

End PassFacts.

(** C9.  An obstacle of the immune colour is never destroyed by a bullet
    and never scores as a bullet kill, whatever bullets overlap it: the
    inner loop finds no bullet for it; the pass treats it as if there were
    no bullets (it ends the game on the player, scores for leaving the
    screen, or survives) and leaves the set of bullets to remove as it
    was; in a pass that does not end the game it survives unless it has
    left the screen; and whenever the inner loop does pick a bullet, the
    obstacle is not immune and overlaps that bullet. *)
Theorem immune_obstacle_never_shot {Score : Type} (add_one : Score -> Score)
    player bullets obstacles o (st : pass) :
  color o = RED_IMMUNE ->
  (forall i, bullet_hit o i bullets = None)
  /\ resolve add_one player bullets (o :: obstacles) st
     = (if colliderect (rect o) player
        then mkPass (survived st) (bullets_to_remove st) (score st) true
        else if HEIGHT <? y (rect o)
        then resolve add_one player bullets obstacles
               (mkPass (survived st) (bullets_to_remove st)
                  (add_one (score st)) (game_over st))
        else resolve add_one player bullets obstacles
               (mkPass (survived st ++ [o]) (bullets_to_remove st)
                  (score st) (game_over st)))
  /\ (In o obstacles ->
      game_over (resolve add_one player bullets obstacles st) = false ->
      y (rect o) <= HEIGHT ->
      In o (survived (resolve add_one player bullets obstacles st)))
  /\ (forall o' j,
        bullet_hit o' 0 bullets = Some j ->
        color o' <> RED_IMMUNE
        /\ exists b, bullets !! j = Some b
                     /\ colliderect (rect o') (rect b) = true).
Proof.
  intros Hc. apply is_immune_true in Hc.
  split; [intros i; now apply bullet_hit_immune |].
  split; [cbn [resolve]; now rewrite bullet_hit_immune |].
  split.
  - intros Hin Hg Hy.
    now apply (resolve_keeps add_one player bullets obstacles st Hg).
  - intros o' j H. apply bullet_hit_Some in H as (Hi & _ & b & Hb & Hcol).
    split.
    + intros Hc'. apply is_immune_true in Hc'. congruence.
    + exists b. now rewrite Nat.sub_0_r in Hb.
Qed.

Lemma immune_obstacle_never_shot_witness :
  color demo_immune = RED_IMMUNE
  /\ bullet_hit demo_immune 0 demo_bullets = None
  /\ collisions Z.succ demo_player [demo_immune; demo_plain] demo_bullets
       0 false
     = ([demo_immune], [nth 0 demo_bullets demo_immune;
                        nth 1 demo_bullets demo_immune], 1, false).
Proof.
  split; [reflexivity |].
  destruct (immune_obstacle_never_shot Z.succ demo_player demo_bullets
              [demo_plain] demo_immune (mkPass [] ∅ 0 false) eq_refl)
    as (H1 & H2 & _).
  split; [apply H1 |].
  unfold collisions. rewrite H2. vm_compute. reflexivity.
Defined.

End GameProofs.

(* ===================================================================== *)
(** * The button: debounce and heartbeat                                *)
(* ===================================================================== *)

Module FirmwareProofs.

Import Firmware.
Local Open Scope Z_scope.

(** ** Messages and ticks *)

Lemma append_inj_r (s a b : string) :
  (s ++ a)%string = (s ++ b)%string -> a = b.
Proof.
  induction s as [| c s IH]; intros H; [exact H |].
  apply IH.
  change (String c (s ++ a) = String c (s ++ b)) in H.
  now injection H.
Qed.

Lemma fmt_inj nm a b : fmt nm a = fmt nm b -> a = b.
Proof.
  unfold fmt. intros H. apply append_inj_r in H.
  change (String " " a = String " " b) in H.
  now injection H.
Qed.

Lemma fmt_neq nm a b : a <> b -> fmt nm a <> fmt nm b.
Proof. intros Hab H. now apply Hab, (fmt_inj nm). Qed.

Lemma ticks_diff_same a : ticks_diff a a = 0.
Proof. unfold ticks_diff. now rewrite Z.sub_diag. Qed.

(** [ticks_diff] is the elapsed time whenever less than half a period has
    passed, also across the wrap of [ticks_ms]. *)
Lemma ticks_diff_elapsed ms0 ms1 :
  0 <= ms1 - ms0 < TICKS_PERIOD / 2 ->
  ticks_diff (ticks_ms ms1) (ticks_ms ms0) = ms1 - ms0.
Proof.
  unfold ticks_diff, ticks_ms.
  change (TICKS_PERIOD - 1) with (Z.ones 30).
  rewrite Z.land_ones by lia.
  change (TICKS_PERIOD / 2) with 536870912.
  change (2 ^ 30) with 1073741824.
  change TICKS_PERIOD with 1073741824.
  intros H.
  pose proof (Z.div_mod ms1 1073741824 ltac:(lia)) as H1.
  pose proof (Z.div_mod ms0 1073741824 ltac:(lia)) as H0.
  rewrite <- (Z.mod_unique_pos
                (ms1 mod 1073741824 - ms0 mod 1073741824 + 536870912)
                1073741824 (ms0 / 1073741824 - ms1 / 1073741824)
                (ms1 - ms0 + 536870912)); lia.
Qed.

(** ** One poll *)

Ltac crunch :=
  repeat first
    [ progress cbn [Bool.eqb negb andb app name pin last_raw last_change
                      stable pressed_time last_held_print]
    | progress rewrite ticks_diff_same
    | progress change (DEBOUNCE_MS <=? 0) with false
    | progress change (HELD_PRINT_INTERVAL_MS <=? 0) with false
    | match goal with
      | H : (?a <=? ?b) = _ |- context [?a <=? ?b] => rewrite H
      | |- context [?a <=? ?b] =>
          let E := fresh "E" in destruct (a <=? b) eqn:E
      end ].

(** [update] in closed form, on a well-formed button: the messages sent
    and the fields afterwards, from [commits] and [beats]. *)
Lemma update_closed t raw self :
  well_formed self ->
  exists self',
    update t raw self
    = Some (self',
            (if commits t raw self
             then [fmt (name self) (if raw then "UP" else "DOWN")]
             else [])
            ++ (if beats t raw self then [fmt (name self) "HELD"] else []))
    /\ well_formed self'
    /\ name self' = name self
    /\ last_raw self' = raw
    /\ last_change self'
       = (if Bool.eqb raw (last_raw self) then last_change self else t)
    /\ stable self' = (if commits t raw self then raw else stable self)
    /\ last_held_print self'
       = (if commits t raw self then (if raw then None else Some t)
          else if beats t raw self then Some t else last_held_print self).
Proof.
  destruct self as [nm pn lr lc st pt lh].
  unfold well_formed, update, track_raw, commit, heartbeat, beats, commits,
    is_zero.
  cbn [name pin last_raw last_change stable pressed_time last_held_print].
  intros Hwf.
  destruct pt as [pt |], lh as [lh |]; try contradiction; subst;
    destruct raw, lr; try destruct st; crunch; eexists; repeat split.
Qed.

Lemma commits_true t raw self :
  commits t raw self = true ->
  DEBOUNCE_MS
  <= ticks_diff t
       (if Bool.eqb raw (last_raw self) then last_change self else t)
  /\ raw <> stable self.
Proof.
  unfold commits. intros H. apply andb_true_iff in H as [H1 H2].
  apply Z.leb_le in H1. apply negb_true_iff, eqb_false_iff in H2. auto.
Qed.

Lemma commits_false t raw self :
  commits t raw self = false ->
  ticks_diff t
    (if Bool.eqb raw (last_raw self) then last_change self else t)
  < DEBOUNCE_MS
  \/ raw = stable self.
Proof.
  unfold commits. intros H. apply andb_false_iff in H as [H | H].
  - left. now apply Z.leb_gt in H.
  - right. now apply negb_false_iff, eqb_prop in H.
Qed.

Lemma beats_true t raw self :
  beats t raw self = true ->
  commits t raw self = false /\ stable self = false
  /\ exists lh, last_held_print self = Some lh
                /\ HELD_PRINT_INTERVAL_MS <= ticks_diff t lh.
Proof.
  unfold beats, is_zero. intros H.
  apply andb_true_iff in H as [H H3]. apply andb_true_iff in H as [H1 H2].
  apply negb_true_iff in H1, H2. repeat split; try assumption.
  destruct (last_held_print self) as [lh |]; [| discriminate].
  exists lh. split; [reflexivity | now apply Z.leb_le].
Qed.

(** The three things a poll can do: nothing, commit a transition, or
    send a heartbeat. *)
Lemma update_shape t raw self self' out :
  well_formed self -> update t raw self = Some (self', out) ->
  well_formed self' /\ name self' = name self /\ last_raw self' = raw
  /\ last_change self'
     = (if Bool.eqb raw (last_raw self) then last_change self else t)
  /\ ((commits t raw self = false /\ beats t raw self = false
       /\ out = [] /\ stable self' = stable self
       /\ last_held_print self' = last_held_print self)
      \/ (commits t raw self = true /\ beats t raw self = false
          /\ out = [fmt (name self) (if raw then "UP" else "DOWN")]
          /\ stable self' = raw /\ raw <> stable self
          /\ last_held_print self' = (if raw then None else Some t))
      \/ (commits t raw self = false /\ beats t raw self = true
          /\ out = [fmt (name self) "HELD"]
          /\ stable self' = stable self /\ stable self = false
          /\ last_held_print self' = Some t
          /\ exists lh, last_held_print self = Some lh
                        /\ HELD_PRINT_INTERVAL_MS <= ticks_diff t lh)).
Proof.
  intros Hwf Hu.
  destruct (update_closed t raw self Hwf)
    as (s2 & Hu2 & Hwf2 & Hn & Hr & Hc & Hs & Hl).
  rewrite Hu2 in Hu. injection Hu as <- <-.
  repeat (split; [assumption |]).
  destruct (commits t raw self) eqn:Ec.
  - right; left.
    assert (Eb : beats t raw self = false)
      by (unfold beats; now rewrite Ec).
    rewrite Eb in *. apply commits_true in Ec as [_ Ec]. auto 10.
  - destruct (beats t raw self) eqn:Eb.
    + right; right. apply beats_true in Eb as (_ & Hst & Hlh). auto 10.
    + left. auto 10.
Qed.

Lemma update_total t raw self :
  well_formed self -> exists self' out, update t raw self = Some (self', out).
Proof.
  intros Hwf. destruct (update_closed t raw self Hwf) as (s2 & Hu & _).
  eauto.
Qed.

(** ** Runs of polls *)

Lemma run_app ss1 ss2 self :
  run (ss1 ++ ss2) self
  = match run ss1 self with
    | None => None
    | Some (s1, tr1) =>
        match run ss2 s1 with
        | None => None
        | Some (s2, tr2) => Some (s2, tr1 ++ tr2)
        end
    end.
Proof.
  revert self. induction ss1 as [| [t r] ss1 IH]; intros self; simpl.
  - now destruct (run ss2 self) as [[? ?] |].
  - destruct (update t r self) as [[s' out] |]; [| reflexivity].
    rewrite IH. destruct (run ss1 s') as [[s1 tr1] |]; [| reflexivity].
    destruct (run ss2 s1) as [[s2 tr2] |]; [| reflexivity].
    now rewrite app_assoc.
Qed.

Lemma run_snoc ss t r s0 :
  run (ss ++ [(t, r)]) s0
  = match run ss s0 with
    | None => None
    | Some (self, tr) =>
        match update t r self with
        | None => None
        | Some (self', out) => Some (self', tr ++ map (pair t) out)
        end
    end.
Proof.
  rewrite run_app. destruct (run ss s0) as [[self tr] |]; [| reflexivity].
  simpl. destruct (update t r self) as [[self' out] |]; [| reflexivity].
  now rewrite app_nil_r.
Qed.

Lemma steady_since_snoc t0 r0 ss t r :
  steady_since t0 r0 (ss ++ [(t, r)])
  = (if Bool.eqb r (snd (steady_since t0 r0 ss))
     then steady_since t0 r0 ss else (t, r)).
Proof.
  revert t0 r0. induction ss as [| [t1 r1] ss IH]; intros t0 r0; simpl.
  - now destruct (Bool.eqb r r0).
  - destruct (Bool.eqb r1 r0); apply IH.
Qed.

(** ** Traces *)

Lemma is_transition_commit nm (raw : level) :
  is_transition nm (fmt nm (if raw then "UP" else "DOWN")) = true.
Proof.
  unfold is_transition. apply orb_true_iff.
  destruct raw; [right | left]; now apply bool_decide_eq_true.
Qed.

Lemma is_transition_HELD nm : is_transition nm (fmt nm "HELD") = false.
Proof.
  unfold is_transition. apply orb_false_iff.
  split; apply bool_decide_eq_false, fmt_neq; discriminate.
Qed.

Lemma transitions_snoc nm tr t m :
  transitions nm (tr ++ [(t, m)])
  = transitions nm tr ++ (if is_transition nm m then [(t, m)] else []).
Proof.
  unfold transitions. rewrite filter_app. f_equal.
  rewrite filter_cons, filter_nil. cbn [snd].
  destruct (is_transition nm m); now case_decide.
Qed.

Lemma last_announce_snoc nm tr t m :
  last_announce nm (tr ++ [(t, m)])
  = (if bool_decide (m = fmt nm "DOWN") || bool_decide (m = fmt nm "HELD")
     then Some t else None).
Proof. unfold last_announce. now rewrite last_snoc. Qed.

Lemma last_announce_commit nm tr t (raw : level) :
  last_announce nm (tr ++ [(t, fmt nm (if raw then "UP" else "DOWN"))])
  = (if raw then None else Some t).
Proof.
  rewrite last_announce_snoc. destruct raw.
  - rewrite !bool_decide_eq_false_2 by (apply fmt_neq; discriminate).
    reflexivity.
  - now rewrite bool_decide_eq_true_2.
Qed.

Lemma last_announce_HELD nm tr t :
  last_announce nm (tr ++ [(t, fmt nm "HELD")]) = Some t.
Proof.
  rewrite last_announce_snoc.
  rewrite (bool_decide_eq_true_2 (fmt nm "HELD" = fmt nm "HELD")) by easy.
  now rewrite orb_true_r.
Qed.

Lemma no_repeat_snoc l m :
  no_repeat l -> last l <> Some m -> no_repeat (l ++ [m]).
Proof.
  induction l as [| a l IH]; intros Hn Hl; [exact I |].
  destruct l as [| b l].
  - simpl. split; [| exact I]. intros ->. now apply Hl.
  - destruct Hn as [Hab Hn]. split; [exact Hab |].
    apply IH; [exact Hn | exact Hl].
Qed.

(** ** What holds of every button reached from [__init__] *)

Lemma run_reach nm pn r0 t0 ss :
  exists self tr,
    run ss (__init__ nm pn r0 t0) = Some (self, tr)
    /\ well_formed self
    /\ name self = nm
    /\ steady_since t0 r0 ss = (last_change self, last_raw self)
    /\ last_held_print self = last_announce nm tr
    /\ match last (map snd (transitions nm tr)) with
       | Some m => m = fmt nm (if stable self then "UP" else "DOWN")
       | None => stable self = r0
       end
    /\ no_repeat (map snd (transitions nm tr))
    /\ (forall e tr', tr = e :: tr' ->
                      snd e = fmt nm (if r0 then "DOWN" else "UP"))
    /\ (tr = [] -> stable self = r0).
Proof.
  induction ss as [| [t raw] ss IH] using rev_ind.
  - exists (__init__ nm pn r0 t0), []. repeat split; try easy.
  - destruct IH as (self & tr & Hrun & Hwf & Hnm & Hst & Hlh & Hlast & Hnr
                    & Hfirst & Hempty).
    destruct (update_total t raw self Hwf) as (self' & out & Hu).
    destruct (update_shape t raw self self' out Hwf Hu)
      as (Hwf' & Hnm' & Hlr' & Hlc' & Hcases).
    exists self', (tr ++ map (pair t) out).
    rewrite run_snoc, Hrun, Hu, Hnm in *.
    split; [reflexivity |]. split; [assumption |].
    split; [congruence |].
    split.
    { rewrite steady_since_snoc, Hst, Hlc', Hlr'. cbn [snd].
      destruct (Bool.eqb raw (last_raw self)) eqn:E; [| reflexivity].
      apply eqb_prop in E. now rewrite E. }
    destruct Hcases
      as [(Ec & Eb & -> & Hs & Hl)
         | [(Ec & Eb & -> & Hs & Hne & Hl)
           | (Ec & Eb & -> & Hs & Hs0 & Hl & lh & Hlh0 & Hint)]];
      cbn [map].
    + rewrite app_nil_r, Hs, Hl.
      repeat split; assumption.
    + rewrite last_announce_commit, transitions_snoc, is_transition_commit.
      rewrite map_app. cbn [map snd]. rewrite last_snoc, Hs.
      split; [assumption |]. split; [reflexivity |]. split.
      { apply no_repeat_snoc; [assumption |].
        destruct (last (map snd (transitions nm tr))) as [m0 |];
          [| discriminate].
        subst m0. intros [= H]. apply fmt_inj in H.
        destruct (stable self), raw; easy. }
      split.
      * intros e tr' H. destruct tr as [| e0 tr0].
        -- injection H as <- _. cbn [snd].
           rewrite <- (Hempty eq_refl). destruct (stable self), raw; easy.
        -- injection H as <- _. now apply (Hfirst e0 tr0).
      * intros H. now apply app_eq_nil in H as [_ H].
    + rewrite last_announce_HELD, transitions_snoc, is_transition_HELD.
      rewrite app_nil_r, Hs.
      split; [assumption |]. split; [assumption |].
      split; [assumption |]. split.
      * intros e tr' H. destruct tr as [| e0 tr0].
        -- rewrite Hlh0 in Hlh. discriminate.
        -- injection H as <- _. now apply (Hfirst e0 tr0).
      * intros H. now apply app_eq_nil in H as [_ H].
Qed.

Lemma quiet_for_reach t0 r0 ss self t raw :
  steady_since t0 r0 ss = (last_change self, last_raw self) ->
  quiet_for t0 r0 ss t raw
  = ticks_diff t
      (if Bool.eqb raw (last_raw self) then last_change self else t).
Proof.
  intros H. unfold quiet_for. rewrite steady_since_snoc, H. cbn [snd].
  now destruct (Bool.eqb raw (last_raw self)).
Qed.

Lemma well_formed_announced self ta :
  well_formed self -> last_held_print self = Some ta ->
  stable self = false /\ pressed_time self <> None.
Proof.
  unfold well_formed. intros Hwf H. rewrite H in Hwf.
  now destruct (pressed_time self).
Qed.

Lemma well_formed_silent self :
  well_formed self -> last_held_print self = None ->
  pressed_time self = None.
Proof.
  unfold well_formed. intros Hwf H. rewrite H in Hwf.
  now destruct (pressed_time self).
Qed.

Lemma bouncing_prefix t0 r0 ss x :
  bouncing t0 r0 (ss ++ [x]) -> bouncing t0 r0 ss.
Proof.
  intros H p t r q ->. apply (H p t r (q ++ [x])).
  now rewrite <- app_assoc.
Qed.

(** While the raw level keeps changing inside the debounce window, no
    transition is sent. *)
Lemma bouncing_no_transition nm pn r0 t0 ss self tr :
  run ss (__init__ nm pn r0 t0) = Some (self, tr) ->
  bouncing t0 r0 ss -> transitions nm tr = [].
Proof.
  revert self tr. induction ss as [| [t raw] ss IH] using rev_ind;
    intros self tr Hrun Hb.
  - now injection Hrun as <- <-.
  - destruct (run_reach nm pn r0 t0 ss)
      as (self0 & tr0 & Hrun0 & Hwf & Hnm & Hst & _).
    rewrite run_snoc, Hrun0 in Hrun.
    destruct (update t raw self0) as [[self1 out] |] eqn:Hu;
      [| discriminate].
    injection Hrun as <- <-.
    pose proof (Hb ss t raw [] eq_refl) as Hq.
    rewrite (quiet_for_reach t0 r0 ss self0) in Hq by assumption.
    specialize (IH self0 tr0 Hrun0 (bouncing_prefix _ _ _ _ Hb)).
    destruct (update_shape t raw self0 self1 out Hwf Hu)
      as (_ & _ & _ & _ & Hcases).
    rewrite Hnm in Hcases.
    destruct Hcases
      as [(Ec & Eb & -> & _)
         | [(Ec & _) | (Ec & Eb & -> & _)]]; cbn [map].
    + now rewrite app_nil_r.
    + apply commits_true in Ec as [Ec _]. lia.
    + now rewrite transitions_snoc, is_transition_HELD, app_nil_r.
Qed.

Lemma snoc_eq_two {A} (l : list A) x l1 e1 e2 l2 :
  l ++ [x] = l1 ++ e1 :: e2 :: l2 ->
  (l2 = [] /\ x = e2 /\ l = l1 ++ [e1])
  \/ (exists l2', l2 = l2' ++ [x] /\ l = l1 ++ e1 :: e2 :: l2').
Proof.
  destruct l2 as [| y l2 _] using rev_ind; intros H.
  - left. change (l1 ++ [e1; e2]) with (l1 ++ [e1] ++ [e2]) in H.
    rewrite app_assoc in H. apply app_inj_tail in H as [-> ->]. auto.
  - right. exists l2.
    change (l1 ++ e1 :: e2 :: l2 ++ [y])
      with (l1 ++ (e1 :: e2 :: l2) ++ [y]) in H.
    rewrite app_assoc in H. apply app_inj_tail in H as [-> ->]. auto.
Qed.

(** Every HELD comes right after a DOWN or a HELD, at least the heartbeat
    interval later. *)
Lemma held_spacing nm pn r0 t0 ss self tr :
  run ss (__init__ nm pn r0 t0) = Some (self, tr) ->
  forall tr1 e1 e2 tr2,
    tr = tr1 ++ e1 :: e2 :: tr2 -> snd e2 = fmt nm "HELD" ->
    (snd e1 = fmt nm "DOWN" \/ snd e1 = fmt nm "HELD")
    /\ HELD_PRINT_INTERVAL_MS <= ticks_diff (fst e2) (fst e1).
Proof.
  revert self tr. induction ss as [| [t raw] ss IH] using rev_ind;
    intros self tr Hrun tr1 e1 e2 tr2 Htr He2.
  - injection Hrun as <- <-. now destruct tr1.
  - destruct (run_reach nm pn r0 t0 ss)
      as (self0 & tr0 & Hrun0 & Hwf & Hnm & Hst & Hlh & _).
    rewrite run_snoc, Hrun0 in Hrun.
    destruct (update t raw self0) as [[self1 out] |] eqn:Hu;
      [| discriminate].
    injection Hrun as <- <-.
    specialize (IH self0 tr0 Hrun0).
    destruct (update_shape t raw self0 self1 out Hwf Hu)
      as (_ & _ & _ & _ & Hcases).
    rewrite Hnm in Hcases.
    destruct Hcases
      as [(Ec & Eb & -> & _)
         | [(Ec & Eb & -> & _)
           | (Ec & Eb & -> & _ & _ & _ & lh & Hlh0 & Hint)]];
      cbn [map] in Htr.
    + rewrite app_nil_r in Htr. now apply (IH tr1 e1 e2 tr2).
    + apply snoc_eq_two in Htr as [(_ & <- & _) | (l2 & _ & Htr)].
      * cbn [snd] in He2. apply fmt_inj in He2. now destruct raw.
      * now apply (IH tr1 e1 e2 l2).
    + apply snoc_eq_two in Htr as [(_ & <- & Htr) | (l2 & _ & Htr)].
      * rewrite Hlh0, Htr in Hlh. destruct e1 as [t1 m1].
        rewrite last_announce_snoc in Hlh. cbn [fst snd].
        destruct (bool_decide (m1 = fmt nm "DOWN")) eqn:E1.
        -- injection Hlh as ->. apply bool_decide_eq_true in E1. auto.
        -- destruct (bool_decide (m1 = fmt nm "HELD")) eqn:E2;
             [| discriminate].
           injection Hlh as ->. apply bool_decide_eq_true in E2. auto.
      * now apply (IH tr1 e1 e2 l2).
Qed.

(** ** The claims about the button *)

(** C2.  Debounce.  From a button as constructed, after any polls [ss],
    the next poll [(t, raw)] never raises, and it sends a DOWN or an UP if
    and only if the raw level has been the same for at least
    [DEBOUNCE_MS] and differs from the stable level; a DOWN is sent for
    level 0 and an UP for level 1, and the stable level becomes that
    level.  Polls whose raw level keeps changing inside the window send no
    DOWN and no UP at all.  In every trace the DOWNs and UPs alternate: no
    two in a row are the same. *)
Theorem debounce_transitions nm pn r0 t0 ss t raw :
  exists self tr self' out,
    run ss (__init__ nm pn r0 t0) = Some (self, tr)
    /\ update t raw self = Some (self', out)
    /\ ((In (fmt nm "DOWN") out \/ In (fmt nm "UP") out)
        <-> (DEBOUNCE_MS <= quiet_for t0 r0 ss t raw
             /\ raw <> stable self))
    /\ (In (fmt nm "DOWN") out -> raw = false /\ stable self' = false)
    /\ (In (fmt nm "UP") out -> raw = true /\ stable self' = true)
    /\ (bouncing t0 r0 ss -> transitions nm tr = [])
    /\ no_repeat (map snd (transitions nm tr)).
Proof.
  destruct (run_reach nm pn r0 t0 ss)
    as (self & tr & Hrun & Hwf & Hnm & Hst & _ & _ & Hnr & _).
  destruct (update_total t raw self Hwf) as (self' & out & Hu).
  exists self, tr, self', out.
  split; [assumption |]. split; [assumption |].
  rewrite (quiet_for_reach t0 r0 ss self) by assumption.
  destruct (update_shape t raw self self' out Hwf Hu)
    as (_ & _ & _ & _ & Hcases).
  rewrite Hnm in Hcases.
  assert (Hin : forall k m, In (fmt nm k) [fmt nm m] -> k = m).
  { intros k m [H | []]. symmetry. now apply fmt_inj in H. }
  split; [| split; [| split; [| split]]].
  - destruct Hcases
      as [(Ec & _ & -> & _)
         | [(Ec & _ & -> & _) | (Ec & _ & -> & _)]].
    + apply commits_false in Ec. split.
      * intros [[] | []].
      * intros [H1 H2]. destruct Ec; [lia | contradiction].
    + apply commits_true in Ec. split; [intros _; exact Ec |].
      intros _. destruct raw; [right | left]; now left.
    + apply commits_false in Ec. split.
      * intros [H | H]; apply Hin in H; discriminate.
      * intros [H1 H2]. destruct Ec; [lia | contradiction].
  - destruct Hcases
      as [(_ & _ & -> & _)
         | [(_ & _ & -> & Hs & _) | (_ & _ & -> & _)]]; intros H.
    + destruct H.
    + apply Hin in H. rewrite Hs. now destruct raw.
    + apply Hin in H. discriminate.
  - destruct Hcases
      as [(_ & _ & -> & _)
         | [(_ & _ & -> & Hs & _) | (_ & _ & -> & _)]]; intros H.
    + destruct H.
    + apply Hin in H. rewrite Hs. now destruct raw.
    + apply Hin in H. discriminate.
  - now apply (bouncing_no_transition nm pn r0 t0 ss self tr).
  - exact Hnr.
Qed.

Lemma demo_bounce_bouncing : bouncing 0 true demo_bounce.
Proof.
  intros p t r q H. unfold demo_bounce in H.
  do 6 (destruct p as [| [? ?] p];
        [ injection H as <- <- _; vm_compute; reflexivity
        | injection H as <- <- H ]).
  now destruct p.
Defined.

Lemma debounce_transitions_witness :
  bouncing 0 true demo_bounce
  /\ exists self tr,
       run demo_bounce (__init__ "A" 16 true 0) = Some (self, tr)
       /\ transitions "A" tr = [].
Proof.
  split; [exact demo_bounce_bouncing |].
  destruct (debounce_transitions "A" 16 true 0 demo_bounce 70 true)
    as (self & tr & _ & _ & Hrun & _ & _ & _ & _ & Hb & _).
  exists self, tr. split; [exact Hrun |].
  apply Hb. exact demo_bounce_bouncing.
Defined.

(** C3.  Heartbeat.  From a button as constructed, after any polls [ss]
    with trace [tr], the next poll [(t, raw)] sends a HELD if and only if
    the stable level after the poll is 0 (pressed) and the last message
    sent before was a DOWN or a HELD, at a time [ta] with
    [ticks_diff t ta] at least [HELD_PRINT_INTERVAL_MS].  So in every
    trace a HELD comes right after a DOWN or a HELD and at least that
    interval later, and no trace starts with a HELD. *)
Theorem held_heartbeat nm pn r0 t0 ss t raw :
  exists self tr self' out,
    run ss (__init__ nm pn r0 t0) = Some (self, tr)
    /\ update t raw self = Some (self', out)
    /\ (In (fmt nm "HELD") out
        <-> (stable self' = false
             /\ exists ta, last_announce nm tr = Some ta
                           /\ HELD_PRINT_INTERVAL_MS <= ticks_diff t ta))
    /\ (forall tr1 e1 e2 tr2,
          tr = tr1 ++ e1 :: e2 :: tr2 -> snd e2 = fmt nm "HELD" ->
          (snd e1 = fmt nm "DOWN" \/ snd e1 = fmt nm "HELD")
          /\ HELD_PRINT_INTERVAL_MS <= ticks_diff (fst e2) (fst e1))
    /\ (forall e tr', tr = e :: tr' -> snd e <> fmt nm "HELD").
Proof.
  destruct (run_reach nm pn r0 t0 ss)
    as (self & tr & Hrun & Hwf & Hnm & Hst & Hlh & _ & _ & Hfirst & _).
  destruct (update_total t raw self Hwf) as (self' & out & Hu).
  exists self, tr, self', out.
  split; [assumption |]. split; [assumption |].
  destruct (update_shape t raw self self' out Hwf Hu)
    as (_ & _ & _ & _ & Hcases).
  rewrite Hnm in Hcases.
  assert (Hin : forall k m, In (fmt nm k) [fmt nm m] -> k = m).
  { intros k m [H | []]. symmetry. now apply fmt_inj in H. }
  split; [| split].
  - destruct Hcases
      as [(Ec & Eb & -> & Hs & _)
         | [(Ec & _ & -> & Hs & Hne & _)
           | (_ & _ & -> & Hs & Hs0 & _ & lh & Hlh0 & Hint)]].
    + split; [intros [] |]. intros (Hs' & ta & Hta & Hint).
      exfalso. rewrite <- Hlh in Hta.
      unfold beats, is_zero in Eb.
      rewrite Ec, <- Hs, Hs', Hta in Eb. cbn [negb andb] in Eb.
      apply Z.leb_gt in Eb. lia.
    + split.
      * intros H. apply Hin in H. now destruct raw.
      * intros (Hs' & ta & Hta & _). exfalso. rewrite <- Hlh in Hta.
        apply (well_formed_announced self ta Hwf) in Hta as [Hta _].
        congruence.
    + split; [| intros _; now left].
      intros _. split; [congruence |].
      exists lh. split; [congruence | exact Hint].
  - now apply (held_spacing nm pn r0 t0 ss self tr).
  - intros e tr' H He. rewrite (Hfirst e tr' H) in He.
    apply fmt_inj in He. now destruct r0.
Qed.

Lemma held_heartbeat_witness :
  exists self tr,
    run demo_press (__init__ "A" 16 true 0) = Some (self, tr)
    /\ forall tr1 e1 e2 tr2,
         tr = tr1 ++ e1 :: e2 :: tr2 -> snd e2 = fmt "A" "HELD" ->
         HELD_PRINT_INTERVAL_MS <= ticks_diff (fst e2) (fst e1).
Proof.
  destruct (held_heartbeat "A" 16 true 0 demo_press 360 true)
    as (self & tr & _ & _ & Hrun & _ & _ & Hsp & _).
  exists self, tr. split; [exact Hrun |].
  intros tr1 e1 e2 tr2 H1 H2. now apply (Hsp tr1 e1 e2 tr2).
Defined.

(** C10.  A button whose pin reads 0 (pressed) at construction: every run
    of polls goes through without raising; as long as nothing has been
    sent the stable level is still 0 and [pressed_time] and
    [last_held_print] are still [None]; the first message of every trace
    is an UP, so no DOWN and no HELD is sent for the initial press; and
    the poll that sends the first message sends that UP alone, reads
    level 1, and finds the raw level unchanged for at least
    [DEBOUNCE_MS]. *)
Theorem pressed_at_boot_first_event_is_up nm pn t0 ss :
  exists self tr,
    run ss (__init__ nm pn false t0) = Some (self, tr)
    /\ (tr = [] ->
        stable self = false /\ pressed_time self = None
        /\ last_held_print self = None)
    /\ (forall e tr', tr = e :: tr' -> snd e = fmt nm "UP")
    /\ (forall p t r q self0 self1 out,
          ss = p ++ (t, r) :: q ->
          run p (__init__ nm pn false t0) = Some (self0, []) ->
          update t r self0 = Some (self1, out) ->
          out <> [] ->
          out = [fmt nm "UP"] /\ r = true
          /\ DEBOUNCE_MS <= quiet_for t0 false p t r).
Proof.
  destruct (run_reach nm pn false t0 ss)
    as (self & tr & Hrun & Hwf & Hnm & Hst & Hlh & _ & _ & Hfirst & Hempty).
  exists self, tr. split; [assumption |]. split; [| split].
  - intros ->. cbn in Hlh.
    split; [now apply Hempty |].
    split; [now apply well_formed_silent | assumption].
  - exact Hfirst.
  - intros p t r q self0 self1 out _ Hrun0 Hu Hout.
    destruct (run_reach nm pn false t0 p)
      as (s0 & tr0 & Hr0 & Hwf0 & Hnm0 & Hst0 & Hlh0 & _ & _ & _ & Hemp0).
    rewrite Hrun0 in Hr0. injection Hr0 as <- <-.
    specialize (Hemp0 eq_refl). cbn in Hlh0.
    rewrite (quiet_for_reach t0 false p self0) by assumption.
    destruct (update_shape t r self0 self1 out Hwf0 Hu)
      as (_ & _ & _ & _ & Hcases).
    rewrite Hnm0 in Hcases.
    destruct Hcases
      as [(_ & _ & -> & _)
         | [(Ec & _ & -> & _ & Hne & _)
           | (_ & _ & _ & _ & _ & _ & lh & Hl & _)]].
    + contradiction.
    + apply commits_true in Ec as [Ec _]. rewrite Hemp0 in Hne.
      destruct r; [auto | contradiction].
    + congruence.
Qed.

Lemma pressed_at_boot_first_event_is_up_witness :
  exists self tr,
    run demo_press (__init__ "A" 16 false 0) = Some (self, tr)
    /\ map snd tr = [fmt "A" "UP"].
Proof.
  destruct (pressed_at_boot_first_event_is_up "A" 16 0 demo_press)
    as (self & tr & Hrun & _).
  exists self, tr. split; [exact Hrun |].
  vm_compute in Hrun. injection Hrun as _ <-. reflexivity.
Defined.

End FirmwareProofs.

(* ===================================================================== *)
(** * More about the game: rectangles, the player, the whole pass       *)
(* ===================================================================== *)

Module GameMore.

Import Game.
Local Open Scope Z_scope.

Ltac z_cases :=
  repeat match goal with
    | |- context [?a =? ?b] => destruct (Z.eqb_spec a b)
    | |- context [?a <? ?b] => destruct (Z.ltb_spec a b)
    end; cbn [orb andb negb]; try reflexivity; try lia.

Lemma colliderect_comm a b : colliderect a b = colliderect b a.
Proof. unfold colliderect. z_cases. Qed.

(** X1.  [colliderect] is symmetric: [a.colliderect(b)] and
    [b.colliderect(a)] always agree; and a rectangle of zero width or
    height collides with nothing, not even with itself. *)
Theorem colliderect_sym a b :
  colliderect a b = colliderect b a
  /\ (w a = 0 \/ h a = 0 -> colliderect a b = false).
Proof.
  split; [apply colliderect_comm |].
  unfold colliderect. intros [-> | ->]; cbn [Z.eqb orb]; [reflexivity |].
  now rewrite orb_true_r.
Qed.

(** X2.  [clamp] with ordered bounds returns a value between the bounds,
    returns a value already between them unchanged, and clamping twice is
    clamping once. *)
Theorem clamp_between value min_value max_value :
  min_value <= max_value ->
  min_value <= clamp value min_value max_value <= max_value
  /\ (min_value <= value <= max_value ->
      clamp value min_value max_value = value)
  /\ clamp (clamp value min_value max_value) min_value max_value
     = clamp value min_value max_value.
Proof. unfold clamp. lia. Qed.

Lemma clamp_between_witness :
  0 <= clamp (-7) 0 850 <= 850 /\ clamp 857 0 850 = 850.
Proof.
  split.
  - apply (clamp_between (-7) 0 850). lia.
  - reflexivity.
Defined.

(** X3.  Steering keeps a player of the game's size on the screen,
    whatever the rectangle was; from a player on the screen it moves it by
    at most [PLAYER_SPEED] sideways and not at all vertically, and left
    and right together (or neither) leave it where it is. *)
Theorem steer_on_screen go_left go_right r :
  w r = PLAYER_SIZE -> h r = PLAYER_SIZE ->
  on_screen (steer go_left go_right r)
  /\ (on_screen r ->
      y (steer go_left go_right r) = y r
      /\ Z.abs (x (steer go_left go_right r) - x r) <= PLAYER_SPEED
      /\ (go_left = go_right -> steer go_left go_right r = r)).
Proof.
  intros Hw Hh. unfold on_screen, steer, clamp.
  cbn [x y w h]. rewrite Hw, Hh.
  unfold WIDTH, HEIGHT, PLAYER_SIZE, PLAYER_SPEED.
  split; [lia |]. intros Hr. unfold PLAYER_SIZE in *.
  split; [lia |]. split; [destruct go_left, go_right; lia |].
  intros ->. destruct r as [rx ry rw rh]. cbn [x y w h] in *.
  f_equal; destruct go_right; lia.
Qed.

Lemma steer_on_screen_witness :
  on_screen (steer true false start_player)
  /\ x (steer true false start_player) = x start_player - PLAYER_SPEED.
Proof.
  split; [| reflexivity].
  apply (steer_on_screen true false start_player); reflexivity.
Defined.

(** X4.  A new bullet sits on top of the player.  For a player rectangle
    of non-negative width and height, when it and the bullet made for it
    fit in C [int]s (as they do anywhere near the screen), the bullet's
    bottom edge is the player's top edge, it is centred on the player's
    centre, it does not overlap the player, and it is not of the immune
    colour. *)
Theorem create_bullet_on_top player_rect :
  0 <= w player_rect -> 0 <= h player_rect ->
  fits_c_int player_rect ->
  fits_c_int (rect (create_bullet player_rect)) ->
  bottom (rect (create_bullet player_rect)) = top player_rect
  /\ centerx (rect (create_bullet player_rect)) = centerx player_rect
  /\ colliderect (rect (create_bullet player_rect)) player_rect = false
  /\ colliderect player_rect (rect (create_bullet player_rect)) = false
  /\ is_immune (create_bullet player_rect) = false.
Proof.
  intros Hw Hh _ _.
  assert (Hc : colliderect (rect (create_bullet player_rect)) player_rect
               = false).
  { unfold colliderect, create_bullet, top, BULLET_WIDTH, BULLET_HEIGHT.
    cbn [rect x y w h].
    destruct (Z.eqb_spec (w player_rect) 0); [reflexivity |].
    destruct (Z.eqb_spec (h player_rect) 0); [reflexivity |].
    cbn [orb].
    apply andb_false_iff. right. apply Z.ltb_ge. lia. }
  repeat split; try assumption.
  - unfold bottom, create_bullet, top, BULLET_HEIGHT. cbn [rect y h]. lia.
  - unfold create_bullet, centerx, BULLET_WIDTH. cbn [rect x w].
    change (10 / 2) with 5. lia.
  - now rewrite colliderect_comm.
Qed.

Lemma create_bullet_on_top_witness :
  fits_c_int start_player
  /\ fits_c_int (rect (create_bullet start_player))
  /\ bottom (rect (create_bullet start_player)) = top start_player
  /\ colliderect (rect (create_bullet start_player)) start_player = false.
Proof.
  assert (H1 : fits_c_int start_player)
    by (vm_compute; repeat split; discriminate).
  assert (H2 : fits_c_int (rect (create_bullet start_player)))
    by (vm_compute; repeat split; discriminate).
  split; [exact H1 |]. split; [exact H2 |].
  destruct (create_bullet_on_top start_player) as (H3 & _ & H5 & _);
    try assumption; try (vm_compute; discriminate).
  split; assumption.
Defined.

(** X5.  A new obstacle is born just above the screen: with [x_pos] as
    [random.randint] gives it, it lies between the left and right edges,
    its bottom edge is the top of the screen, it overlaps no rectangle
    that lies on the screen (so not the player), and its colour is the
    immune one exactly when the first colour of the list is drawn. *)
Theorem create_obstacle_above_screen x_pos pick :
  0 <= x_pos <= WIDTH - OBSTACLE_SIZE ->
  0 <= x (rect (create_obstacle x_pos pick))
  /\ x (rect (create_obstacle x_pos pick))
     + w (rect (create_obstacle x_pos pick)) <= WIDTH
  /\ bottom (rect (create_obstacle x_pos pick)) = 0
  /\ (forall r, on_screen r ->
                colliderect (rect (create_obstacle x_pos pick)) r = false)
  /\ (is_immune (create_obstacle x_pos pick) = true <-> pick = 0%nat).
Proof.
  intros Hx. unfold create_obstacle, bottom, on_screen, WIDTH, HEIGHT in *.
  cbn [rect x y w h color]. unfold OBSTACLE_SIZE in *.
  split; [lia |]. split; [lia |]. split; [lia |]. split.
  - intros r (H1 & H2 & H3 & H4 & H5 & H6). unfold colliderect.
    cbn [x y w h].
    destruct (Z.eqb_spec (w r) 0); [reflexivity |].
    destruct (Z.eqb_spec (h r) 0); [reflexivity |].
    cbn [Z.eqb orb].
    apply andb_false_iff. right. apply Z.ltb_ge. lia.
  - unfold is_immune. cbn [color]. rewrite bool_decide_eq_true.
    unfold RED_IMMUNE.
    destruct pick as [| [| [| pick]]]; cbn [nth obstacle_colors];
      split; intros H; try reflexivity; try discriminate.
    destruct pick; discriminate.
Qed.

Lemma create_obstacle_above_screen_witness :
  bottom (rect (create_obstacle 840 0)) = 0
  /\ colliderect (rect (create_obstacle 840 0)) start_player = false.
Proof.
  destruct (create_obstacle_above_screen 840 0) as (_ & _ & H3 & H4 & _).
  - vm_compute. split; discriminate.
  - split; [exact H3 |]. apply H4. vm_compute.
    repeat split; discriminate.
Defined.

Section WholePass.

Context {Score : Type}.
Variable add_one : Score -> Score.
Variable player : Rect.
Variable bullets : list Entity.

Lemma resolve_step_harmless o obstacles (st : pass) :
  hits_player player bullets o = false ->
  resolve add_one player bullets (o :: obstacles) st
  = resolve add_one player bullets obstacles
      (mkPass
         (if stays bullets o then survived st ++ [o] else survived st)
         (match bullet_hit o 0 bullets with
          | Some i => {[ i ]} ∪ bullets_to_remove st
          | None => bullets_to_remove st
          end)
         (if stays bullets o then score st else add_one (score st))
         (game_over st)).
Proof.
  unfold hits_player, stays. cbn [resolve].
  destruct (bullet_hit o 0 bullets) as [i |]; [reflexivity |].
  intros ->. now destruct (HEIGHT <? y (rect o)).
Qed.

Lemma resolve_app pre rest (st : pass) :
  Forall (harmless player bullets) pre ->
  resolve add_one player bullets (pre ++ rest) st
  = resolve add_one player bullets rest
      (resolve add_one player bullets pre st).
Proof.
  intros H. revert st.
  induction H as [| o pre Ho _ IH]; intros st; [reflexivity |].
  rewrite <- app_comm_cons, !resolve_step_harmless by exact Ho.
  apply IH.
Qed.

Lemma resolve_harmless obstacles (st : pass) :
  Forall (harmless player bullets) obstacles ->
  survived (resolve add_one player bullets obstacles st)
  = survived st ++ List.filter (stays bullets) obstacles
  /\ score (resolve add_one player bullets obstacles st)
     = Nat.iter
         (length (List.filter (fun o => negb (stays bullets o)) obstacles))
         add_one (score st)
  /\ game_over (resolve add_one player bullets obstacles st) = game_over st
  /\ (forall i,
        i ∈ bullets_to_remove (resolve add_one player bullets obstacles st)
        <-> i ∈ bullets_to_remove st
            \/ exists o, In o obstacles
                         /\ bullet_hit o 0 bullets = Some i).
Proof.
  intros H. revert st.
  induction H as [| o os Ho _ IH]; intros st.
  - cbn. rewrite app_nil_r. repeat split; try tauto.
    intros [H | (o & [] & _)]. exact H.
  - rewrite resolve_step_harmless by exact Ho.
    destruct (IH (mkPass
         (if stays bullets o then survived st ++ [o] else survived st)
         (match bullet_hit o 0 bullets with
          | Some i => {[ i ]} ∪ bullets_to_remove st
          | None => bullets_to_remove st
          end)
         (if stays bullets o then score st else add_one (score st))
         (game_over st))) as (IH1 & IH2 & IH3 & IH4).
    cbn [survived score game_over bullets_to_remove] in *.
    rewrite IH1, IH2, IH3. cbn [List.filter].
    split; [| split; [| split; [reflexivity |]]].
    + destruct (stays bullets o); [| reflexivity].
      now rewrite <- app_assoc.
    + destruct (stays bullets o); cbn [negb]; [reflexivity |].
      cbn [length]. now rewrite Nat.iter_succ_r.
    + intros i. rewrite IH4. split.
      * intros [Hi | (o' & Hin & Hh)].
        -- destruct (bullet_hit o 0 bullets) as [j |] eqn:Ej;
             [| now left].
           apply elem_of_union in Hi as [Hi | Hi]; [| now left].
           apply elem_of_singleton in Hi. subst j.
           right. exists o. split; [now left | exact Ej].
        -- right. exists o'. split; [now right | exact Hh].
      * intros [Hi | (o' & [<- | Hin] & Hh)].
        -- left. destruct (bullet_hit o 0 bullets); [| exact Hi].
           apply elem_of_union. now right.
        -- left. rewrite Hh. apply elem_of_union. left.
           now apply elem_of_singleton.
        -- right. exists o'. split; assumption.
Qed.

Lemma resolve_marks obstacles (st : pass) i :
  i ∈ bullets_to_remove (resolve add_one player bullets obstacles st) ->
  i ∈ bullets_to_remove st
  \/ exists o, In o obstacles /\ bullet_hit o 0 bullets = Some i.
Proof.
  revert st. induction obstacles as [| o os IH]; intros st; [now left |].
  cbn [resolve].
  destruct (bullet_hit o 0 bullets) as [j |] eqn:Ej.
  - intros H. apply IH in H as [H | (o' & Hin & Hh)].
    + cbn [bullets_to_remove] in H.
      apply elem_of_union in H as [H | H]; [| now left].
      apply elem_of_singleton in H. subst j.
      right. exists o. split; [now left | exact Ej].
    + right. exists o'. split; [now right | exact Hh].
  - destruct (colliderect (rect o) player); [now left |].
    destruct (HEIGHT <? y (rect o)); intros H;
      (apply IH in H as [H | (o' & Hin & Hh)];
       [now left | right; exists o'; split; [now right | exact Hh]]).
Qed.

Lemma keep_bullets_sublist removed idx bs :
  sublist (keep_bullets removed idx bs) bs
  /\ Forall (fun b => 0 < bottom (rect b)) (keep_bullets removed idx bs).
Proof.
  revert idx. induction bs as [| b bs IH]; intros idx; cbn [keep_bullets].
  - split; constructor.
  - destruct (IH (S idx)) as [IH1 IH2].
    destruct (bool_decide (idx ∉ removed)); cbn [andb];
      [destruct (Z.ltb_spec 0 (bottom (rect b))) |].
    + split; [now apply sublist_skip | now constructor].
    + split; [now apply sublist_cons | assumption].
    + split; [now apply sublist_cons | assumption].
Qed.

Lemma keep_bullets_all idx bs :
  Forall (fun b => 0 < bottom (rect b)) bs ->
  keep_bullets ∅ idx bs = bs.
Proof.
  intros H. revert idx.
  induction H as [| b bs Hb _ IH]; intros idx; cbn [keep_bullets];
    [reflexivity |].
  rewrite bool_decide_eq_true_2 by set_solver.
  apply Z.ltb_lt in Hb. rewrite Hb. cbn [andb]. now rewrite IH.
Qed.

(** X6.  A pass in which no obstacle ends the game keeps the obstacles
    that were neither shot nor below the screen, in their order, after
    those that had survived; adds one to the score for each of the others
    (shot or gone below the screen alike); and leaves [game_over] as it
    was. *)
Theorem pass_accounting obstacles (st : pass) :
  Forall (harmless player bullets) obstacles ->
  survived (resolve add_one player bullets obstacles st)
  = survived st ++ List.filter (stays bullets) obstacles
  /\ score (resolve add_one player bullets obstacles st)
     = Nat.iter
         (length (List.filter (fun o => negb (stays bullets o)) obstacles))
         add_one (score st)
  /\ game_over (resolve add_one player bullets obstacles st)
     = game_over st.
Proof.
  intros H. destruct (resolve_harmless obstacles st H) as (H1 & H2 & H3 & _).
  auto.
Qed.

(** X7.  The bullets marked for removal are bullets that shot an
    obstacle: every index the pass puts in [bullets_to_remove] is the
    index at which the inner loop stopped for some obstacle of the list,
    and is an index of the bullet list; and in a pass in which no obstacle
    ends the game, every such index is marked. *)
Theorem marked_bullets_are_hits obstacles sc over i :
  (i ∈ bullets_to_remove
         (resolve add_one player bullets obstacles (mkPass [] ∅ sc over)) ->
   (i < length bullets)%nat
   /\ exists o, In o obstacles /\ bullet_hit o 0 bullets = Some i)
  /\ (Forall (harmless player bullets) obstacles ->
      forall o, In o obstacles -> bullet_hit o 0 bullets = Some i ->
      i ∈ bullets_to_remove
            (resolve add_one player bullets obstacles
               (mkPass [] ∅ sc over))).
Proof.
  split.
  - intros H. apply resolve_marks in H as [H | (o & Hin & Hh)].
    + cbn [bullets_to_remove] in H. set_solver.
    + split; [| now exists o].
      apply GameProofs.bullet_hit_Some in Hh as (_ & _ & b & Hb & _).
      rewrite Nat.sub_0_r in Hb. now apply lookup_lt_Some in Hb.
  - intros Hh o Hin Ho.
    apply (resolve_harmless obstacles (mkPass [] ∅ sc over) Hh).
    right. now exists o.
Qed.

(** X8.  When the pass reaches an obstacle that is not shot and overlaps
    the player, it stops there with [game_over] set: the obstacles that
    come after it in the list are neither kept nor scored, whatever they
    are. *)
Theorem game_over_drops_the_rest pre o post (st : pass) :
  Forall (harmless player bullets) pre ->
  hits_player player bullets o = true ->
  resolve add_one player bullets (pre ++ o :: post) st
  = mkPass (survived (resolve add_one player bullets pre st))
      (bullets_to_remove (resolve add_one player bullets pre st))
      (score (resolve add_one player bullets pre st)) true.
Proof.
  intros Hpre Ho. rewrite resolve_app by exact Hpre.
  unfold hits_player in Ho. cbn [resolve].
  destruct (bullet_hit o 0 bullets); [discriminate |].
  now rewrite Ho.
Qed.

(** X9.  The bullets kept after the pass are bullets of the list, in
    their order, each with its bottom edge below the top of the screen;
    when nothing is marked and every bullet is still on the screen, all
    are kept. *)
Theorem kept_bullets removed idx :
  sublist (keep_bullets removed idx bullets) bullets
  /\ Forall (fun b => 0 < bottom (rect b))
       (keep_bullets removed idx bullets)
  /\ (Forall (fun b => 0 < bottom (rect b)) bullets ->
      keep_bullets ∅ idx bullets = bullets).
Proof.
  destruct (keep_bullets_sublist removed idx bullets) as [H1 H2].
  split; [exact H1 |]. split; [exact H2 |]. apply keep_bullets_all.
Qed.

End WholePass.

Lemma demo_harmless :
  Forall (harmless demo_player demo_bullets) [demo_immune; demo_plain].
Proof. repeat constructor. Defined.

Lemma pass_accounting_witness :
  Forall (harmless demo_player demo_bullets) [demo_immune; demo_plain]
  /\ survived (resolve Z.succ demo_player demo_bullets
                 [demo_immune; demo_plain] (mkPass [] ∅ 0 false))
     = [demo_immune]
  /\ score (resolve Z.succ demo_player demo_bullets
              [demo_immune; demo_plain] (mkPass [] ∅ 0 false))
     = 1.
Proof.
  split; [exact demo_harmless |].
  destruct (pass_accounting Z.succ demo_player demo_bullets
              [demo_immune; demo_plain] (mkPass [] ∅ 0 false)
              demo_harmless) as (H1 & H2 & _).
  split; [exact H1 | exact H2].
Defined.

Lemma marked_bullets_are_hits_witness :
  2%nat ∈ bullets_to_remove
            (resolve Z.succ demo_player demo_bullets
               [demo_immune; demo_plain] (mkPass [] ∅ 0 false)).
Proof.
  apply (proj2 (marked_bullets_are_hits Z.succ demo_player demo_bullets
                  [demo_immune; demo_plain] 0 false 2%nat)
           demo_harmless demo_plain).
  - right. now left.
  - reflexivity.
Defined.

Lemma game_over_drops_the_rest_witness :
  Forall (harmless demo_player demo_bullets) [demo_immune]
  /\ hits_player demo_player demo_bullets demo_crash = true
  /\ resolve Z.succ demo_player demo_bullets
       ([demo_immune] ++ demo_crash :: [demo_plain]) (mkPass [] ∅ 0 false)
     = mkPass [demo_immune] ∅ 0 true.
Proof.
  assert (H : Forall (harmless demo_player demo_bullets) [demo_immune])
    by (repeat constructor).
  split; [exact H |]. split; [reflexivity |].
  apply (game_over_drops_the_rest Z.succ demo_player demo_bullets
           [demo_immune] demo_crash [demo_plain] (mkPass [] ∅ 0 false) H).
  reflexivity.
Defined.

End GameMore.

(* ===================================================================== *)
(** * More about the serial controller                                  *)
(* ===================================================================== *)

Module HostMore.

Import Host.
Import HostProofs.

(** ** Stripped lines always have a first token *)

Lemma lstrip_head s :
  match Text.lstrip s with
  | [] => True
  | c :: _ => Text.isspace c = false
  end.
Proof.
  induction s as [| c s IH]; [exact I |].
  cbn [Text.lstrip]. now destruct (Text.isspace c) eqn:E.
Qed.

Lemma lstrip_snoc l c :
  Text.isspace c = false ->
  Text.lstrip (l ++ [c]) = Text.lstrip l ++ [c].
Proof.
  intros Hc. induction l as [| a l IH]; cbn [app Text.lstrip].
  - now rewrite Hc.
  - now destruct (Text.isspace a).
Qed.

Lemma rstrip_cons c s :
  Text.isspace c = false -> Text.rstrip (c :: s) = c :: Text.rstrip s.
Proof.
  intros Hc. unfold Text.rstrip. cbn [rev].
  rewrite lstrip_snoc by exact Hc. now rewrite rev_app_distr.
Qed.

Lemma strip_head s :
  match Text.strip s with
  | [] => True
  | c :: _ => Text.isspace c = false
  end.
Proof.
  unfold Text.strip. pose proof (lstrip_head s) as H.
  destruct (Text.lstrip s) as [| c s']; [exact I |].
  now rewrite rstrip_cons.
Qed.

Lemma split_from_nonempty cur s :
  cur <> [] \/ Exists (fun c => Text.isspace c = false) s ->
  Text.split_from cur s <> [].
Proof.
  revert cur. induction s as [| c s IH]; intros cur H; cbn [Text.split_from].
  - destruct H as [H | H]; [| inversion H]. now destruct cur.
  - destruct (Text.isspace c) eqn:Ec.
    + destruct cur as [| a cur]; [| discriminate].
      apply IH. right. destruct H as [H | H]; [contradiction |].
      inversion H; subst; [congruence | assumption].
    + apply IH. left. discriminate.
Qed.

Lemma upper_cp_keeps_text ut c :
  Text.upper_keeps_text ut -> Text.isspace c = false ->
  Exists (fun c' => Text.isspace c' = false) (Text.upper_cp ut c).
Proof.
  intros Hut Hc. unfold Text.upper_cp, Text.is_ascii_lower.
  destruct (N.leb_spec 97 c); destruct (N.leb_spec c 122); cbn [andb].
  - apply Exists_cons_hd. unfold Text.isspace.
    repeat match goal with
      | |- context [(?a <=? ?b)%N] =>
          first [ rewrite (proj2 (N.leb_gt a b)) by lia
                | rewrite (proj2 (N.leb_le a b)) by lia ]
      | |- context [(?a =? ?b)%N] =>
          rewrite (proj2 (N.eqb_neq a b)) by lia
      end.
    reflexivity.
  - destruct (N.ltb_spec c 128); [now apply Exists_cons_hd |].
    destruct (Hut c ltac:(lia) Hc) as (c' & Hin & Hc').
    apply List.Exists_exists. eauto.
  - destruct (N.ltb_spec c 128); [now apply Exists_cons_hd | lia].
  - destruct (N.ltb_spec c 128); [now apply Exists_cons_hd | lia].
Qed.

Lemma handle_stripped_line ut raw s :
  Text.upper_keeps_text ut ->
  exists s', _handle_line ut (Text.strip raw) s = Some s'.
Proof.
  intros Hut. pose proof (strip_head raw) as H. unfold _handle_line.
  destruct (Text.strip raw) as [| c l]; [eauto |].
  assert (Hs : Text.split (Text.upper ut (c :: l)) <> []).
  { apply split_from_nonempty. right. unfold Text.upper.
    cbn [flat_map]. apply Exists_app. left.
    now apply upper_cp_keeps_text. }
  destruct (Text.split (Text.upper ut (c :: l))) as [| nm more];
    [contradiction |].
  repeat match goal with
    | |- context [if ?c then _ else _] => destruct c
    end; eauto.
Qed.

Lemma handle_lines_total ut ls s :
  Text.upper_keeps_text ut ->
  exists s', handle_lines ut (map text_of ls) s = Some s'.
Proof.
  intros Hut. revert s. induction ls as [| l ls IH]; intros s; cbn.
  - eauto.
  - destruct (handle_stripped_line ut (Utf8.decode_ignore l) s Hut)
      as (s1 & H1).
    unfold text_of. rewrite H1. apply IH.
Qed.

Lemma update_goes_through ut rd s :
  Text.upper_keeps_text ut -> rd <> ReadRaises ->
  exists s', update ut rd s = Some s' /\ conn s' = conn s.
Proof.
  intros Hut Hrd. destruct (conn s) as [c |] eqn:Ec.
  - destruct rd as [[| b data] | |]; [| | | congruence].
    + rewrite update_empty. eauto.
    + rewrite update_spec by (congruence || discriminate).
      destruct (complete_lines [] (buffer s ++ b :: data)) as [ls rest].
      destruct (handle_lines_total ut ls (set_buffer rest s) Hut)
        as (s' & H).
      exists s'. split; [exact H |].
      apply handle_lines_frame in H as [_ H]. now rewrite H.
    + unfold update. rewrite Ec. eexists. split; [reflexivity |].
      exact Ec.
  - unfold update. rewrite Ec. eauto.
Qed.

Lemma plain_table_keeps_text : Text.upper_keeps_text plain_table.
Proof.
  intros c _ Hc. exists c. split; [now left | exact Hc].
Defined.

(** X10.  With a case table that never turns text into white space (as
    Unicode's never does), the only exception that escapes [update] is
    one that [read_all] raises and that is not a [SerialException]:
    [update] never reaches the [IndexError] of [parts[0]], whatever bytes
    arrive and whatever the controller holds, because the line it hands
    to [_handle_line] is stripped.  So polls whose reads raise nothing
    but [SerialException] all return, and they never drop or replace the
    connection. *)
Theorem polls_never_raise ut rds self :
  Text.upper_keeps_text ut ->
  (forall rd s,
     update ut rd s = None <-> conn s <> None /\ rd = ReadRaises)
  /\ (Forall (fun rd => rd <> ReadRaises) rds ->
      exists self', polls ut rds self = Some self'
                    /\ conn self' = conn self).
Proof.
  intros Hut. split.
  - intros rd s. split.
    + intros H. destruct rd as [data | |].
      * destruct (update_goes_through ut (ReadOk data) s Hut)
          as (s' & Hs & _); [discriminate | congruence].
      * destruct (update_goes_through ut ReadSerialException s Hut)
          as (s' & Hs & _); [discriminate | congruence].
      * split; [| reflexivity]. unfold update in H.
        destruct (conn s); [discriminate | discriminate].
    + intros [Hc ->]. unfold update.
      destruct (conn s); [reflexivity | congruence].
  - intros Hrds. revert self.
    induction Hrds as [| rd rds Hrd _ IH]; intros self; cbn [polls];
      [eauto |].
    destruct (update_goes_through ut rd self Hut Hrd) as (s1 & H1 & Hc1).
    rewrite H1. destruct (IH s1) as (s2 & H2 & Hc2).
    exists s2. split; [exact H2 | congruence].
Qed.

Lemma polls_never_raise_witness :
  Text.upper_keeps_text plain_table
  /\ exists self',
       polls plain_table
         [ReadOk (blit "  " ++ [NL; x0d; NL] ++ blit "zz"); ReadSerialException]
         (__init__ Opened "COM3" 115200)
       = Some self'.
Proof.
  split; [exact plain_table_keeps_text |].
  destruct (proj2 (polls_never_raise plain_table
                     [ReadOk (blit "  " ++ [NL; x0d; NL] ++ blit "zz");
                      ReadSerialException]
                     (__init__ Opened "COM3" 115200)
                     plain_table_keeps_text))
    as (s' & H & _).
  - repeat constructor; discriminate.
  - now exists s'.
Defined.

(** ** Nothing is lost between the stream and the lines *)

Lemma complete_lines_join buf :
  buf = concat (map (fun l => l ++ [NL]) (fst (complete_lines [] buf)))
        ++ snd (complete_lines [] buf)
  /\ ~ In NL (snd (complete_lines [] buf))
  /\ Forall (fun l => ~ In NL l) (fst (complete_lines [] buf)).
Proof.
  induction buf as [| b r IH]; [cbn; auto |].
  rewrite complete_lines_cons.
  destruct (complete_lines [] r) as [ls rest]. cbn [fst snd] in IH.
  destruct IH as (IH1 & IH2 & IH3).
  destruct (Byte.eqb b NL) eqn:E.
  - apply Byte.byte_dec_bl in E. subst b. cbn [fst snd map concat app].
    split; [now rewrite <- IH1 |]. split; [assumption |].
    constructor; [intros [] | assumption].
  - apply Byte.eqb_false in E. destruct ls as [| l ls];
      cbn [fst snd map concat app] in *.
    + split; [now rewrite IH1 |]. split; [| constructor].
      intros [H | H]; [now apply E | now apply IH2].
    + split; [now rewrite <- IH1 |]. split; [assumption |].
      inversion IH3; subst. constructor; [| assumption].
      intros [H | H]; [now apply E | contradiction].
Qed.

(** X11.  A poll that reads data loses no byte: the old buffer followed
    by the data is exactly the lines handed to [_handle_line], each
    followed by its newline, followed by the new buffer; no line and no
    new buffer contains a newline; and the controller after the poll is
    the one these lines give, in order. *)
Theorem update_keeps_every_byte ut data self self' :
  conn self <> None -> data <> [] ->
  update ut (ReadOk data) self = Some self' ->
  exists ls,
    buffer self ++ data
    = concat (map (fun l => l ++ [NL]) ls) ++ buffer self'
    /\ ~ In NL (buffer self')
    /\ Forall (fun l => ~ In NL l) ls
    /\ handle_lines ut (map text_of ls) (set_buffer (buffer self') self)
       = Some self'.
Proof.
  intros Hc Hd Hu. rewrite update_spec in Hu by assumption.
  destruct (complete_lines_join (buffer self ++ data)) as (H1 & H2 & H3).
  destruct (complete_lines [] (buffer self ++ data)) as [ls rest].
  cbn [fst snd] in *. exists ls.
  pose proof (handle_lines_frame _ _ _ _ Hu) as [Hb _].
  cbn [buffer set_buffer] in Hb. rewrite Hb. auto.
Qed.

Lemma update_keeps_every_byte_witness :
  exists ls,
    [] ++ (blit "A DOWN" ++ [NL] ++ blit "B DOW")
    = concat (map (fun l => l ++ [NL]) ls) ++ blit "B DOW"
    /\ Forall (fun l => ~ In NL l) ls.
Proof.
  destruct (update_keeps_every_byte plain_table
              (blit "A DOWN" ++ [NL] ++ blit "B DOW")
              (__init__ Opened "COM3" 115200)
              (set_buffer (blit "B DOW")
                 (set_left true (__init__ Opened "COM3" 115200))))
    as (ls & H1 & _ & H3 & _);
    [discriminate | discriminate | reflexivity |].
  exists ls. split; [exact H1 | exact H3].
Defined.

(** ** A read error is transparent *)










(** ** Lines as operations on the flags *)

(** X13.  Handling a line twice is handling it once: whatever a line
    does to the flags, doing it again changes nothing (so the repeated
    HELD lines of a held button are harmless). *)
Theorem handle_line_idempotent ut line self self1 :
  _handle_line ut line self = Some self1 ->
  _handle_line ut line self1 = Some self1.
Proof.
  unfold _handle_line.
  destruct line; [now intros [= <-] |].
  destruct (Text.split _) as [| nm more]; [discriminate |].
  repeat match goal with
    | |- context [if ?c then _ else _] => destruct c
    end; now intros [= <-].
Qed.

Lemma handle_line_idempotent_witness :
  _handle_line plain_table (Text.lit "C HELD")
    (set_shoot true (__init__ Opened "COM3" 115200))
  = Some (set_shoot true (__init__ Opened "COM3" 115200)).
Proof.
  apply (handle_line_idempotent plain_table (Text.lit "C HELD")
           (__init__ Opened "COM3" 115200)).
  reflexivity.
Defined.

(** X14.  Lines that name different channels commute: handled in either
    order they give the same controller (or the same exception). *)
Theorem channels_commute ut l1 l2 self :
  channel_of ut l1 <> channel_of ut l2 ->
  match _handle_line ut l1 self with
  | Some s1 => _handle_line ut l2 s1
  | None => None
  end
  = match _handle_line ut l2 self with
    | Some s2 => _handle_line ut l1 s2
    | None => None
    end.
Proof.
  unfold channel_of, _handle_line. intros Hne.
  destruct l1 as [| c1 l1], l2 as [| c2 l2].
  - reflexivity.
  - now destruct (match Text.split _ with [] => _ | _ :: _ => _ end).
  - now destruct (match Text.split _ with [] => _ | _ :: _ => _ end).
  - destruct (Text.split (Text.upper ut (c1 :: l1))) as [| n1 m1];
      destruct (Text.split (Text.upper ut (c2 :: l2))) as [| n2 m2];
      cbn [hd] in Hne.
    + reflexivity.
    + repeat match goal with
        | |- context [if ?c then _ else _] => destruct c
        end; reflexivity.
    + repeat match goal with
        | |- context [if ?c then _ else _] => destruct c
        end; reflexivity.
    + destruct (Text.eqb n1 (Text.lit "A")) eqn:A1;
        destruct (Text.eqb n2 (Text.lit "A")) eqn:A2;
        destruct (Text.eqb n1 (Text.lit "B")) eqn:B1;
        destruct (Text.eqb n2 (Text.lit "B")) eqn:B2;
        destruct (Text.eqb n1 (Text.lit "C")) eqn:C1;
        destruct (Text.eqb n2 (Text.lit "C")) eqn:C2;
        try (exfalso; apply Hne;
             repeat match goal with
               | H : Text.eqb _ _ = true |- _ =>
                   apply TextFacts.eqb_true in H
               end; congruence);
        repeat match goal with
          | |- context [if ?c then _ else _] => destruct c
          end; reflexivity.
Qed.

Lemma channels_commute_witness :
  match _handle_line plain_table (Text.lit "A DOWN")
          (__init__ Opened "COM3" 115200) with
  | Some s1 => _handle_line plain_table (Text.lit "C DOWN") s1
  | None => None
  end
  = Some (set_left true (set_shoot true (__init__ Opened "COM3" 115200))).
Proof.
  rewrite (channels_commute plain_table (Text.lit "A DOWN")
             (Text.lit "C DOWN") (__init__ Opened "COM3" 115200)).
  - reflexivity.
  - discriminate.
Defined.

End HostMore.

(* ===================================================================== *)
(** * More about the button                                             *)
(* ===================================================================== *)

Module FirmwareMore.

Import Firmware.
Import FirmwareProofs.
Local Open Scope Z_scope.

Lemma update_messages t raw self self' out :
  well_formed self -> update t raw self = Some (self', out) ->
  (length out <= 1)%nat /\ Forall (button_message (name self)) out.
Proof.
  intros Hwf Hu.
  destruct (update_shape t raw self self' out Hwf Hu)
    as (_ & _ & _ & _ & Hcases).
  unfold button_message.
  destruct Hcases
    as [(_ & _ & -> & _) | [(_ & _ & -> & _) | (_ & _ & -> & _)]];
    cbn [length]; (split; [lia |]).
  - constructor.
  - constructor; [destruct raw; auto | constructor].
  - constructor; [auto | constructor].
Qed.

Lemma run_messages ss self self' tr :
  well_formed self -> run ss self = Some (self', tr) ->
  Forall (fun e => button_message (name self) (snd e)) tr.
Proof.
  revert self tr. induction ss as [| [t raw] ss IH]; intros self tr Hwf;
    cbn [run].
  - intros [= _ <-]. constructor.
  - destruct (update t raw self) as [[s1 out] |] eqn:Hu; [| discriminate].
    destruct (run ss s1) as [[s2 tr2] |] eqn:Hr; [| discriminate].
    intros [= <- <-].
    destruct (update_shape t raw self s1 out Hwf Hu)
      as (Hwf1 & Hn1 & _).
    destruct (update_messages t raw self s1 out Hwf Hu) as [_ Hm].
    apply Forall_app. split.
    + apply Forall_map. cbn [snd]. exact Hm.
    + rewrite <- Hn1. now apply (IH s1 tr2).
Qed.

(** X15.  From a button as constructed no run of polls raises: the
    [ticks_diff] on [last_held_print] never meets [None], because
    [pressed_time] and [last_held_print] are always set together and only
    while the stable level is 0.  The button keeps its name, [last_raw]
    is the level of the last poll with [last_change] the time the raw
    level last changed, and every message sent is the name followed by
    DOWN, UP or HELD. *)
Theorem run_never_raises nm pn r0 t0 ss :
  exists self tr,
    run ss (__init__ nm pn r0 t0) = Some (self, tr)
    /\ well_formed self
    /\ name self = nm
    /\ (last_change self, last_raw self) = steady_since t0 r0 ss
    /\ Forall (fun e => button_message nm (snd e)) tr.
Proof.
  destruct (run_reach nm pn r0 t0 ss)
    as (self & tr & Hrun & Hwf & Hnm & Hst & _).
  exists self, tr. repeat split; try assumption; [now symmetry |].
  apply (run_messages ss (__init__ nm pn r0 t0) self tr); [exact I |].
  exact Hrun.
Qed.

(** X16.  A poll sends at most one message, and the stable level changes
    at a poll exactly when that message is a DOWN or an UP: a DOWN when
    it becomes 0, an UP when it becomes 1. *)
Theorem one_message_per_poll nm pn r0 t0 ss t raw :
  exists self tr self' out,
    run ss (__init__ nm pn r0 t0) = Some (self, tr)
    /\ update t raw self = Some (self', out)
    /\ (length out <= 1)%nat
    /\ (stable self' <> stable self
        <-> out = [fmt nm (if stable self' then "UP" else "DOWN")]).
Proof.
  destruct (run_reach nm pn r0 t0 ss)
    as (self & tr & Hrun & Hwf & Hnm & _).
  destruct (update_total t raw self Hwf) as (self' & out & Hu).
  exists self, tr, self', out.
  split; [assumption |]. split; [assumption |].
  split; [now apply (update_messages t raw self self' out) |].
  destruct (update_shape t raw self self' out Hwf Hu)
    as (_ & _ & _ & _ & Hcases).
  rewrite Hnm in Hcases.
  destruct Hcases
    as [(_ & _ & -> & Hs & _)
       | [(_ & _ & -> & Hs & Hne & _) | (_ & _ & -> & Hs & _)]].
  - split; [congruence | discriminate].
  - rewrite Hs. split; [reflexivity | intros _; exact Hne].
  - split; [congruence |]. intros [= H]. apply fmt_inj in H.
    now destruct (stable self').
Qed.

(** ** A level that stays is reported *)

(** Polls that keep reading the level [r] that [last_raw] already holds:
    the debounce timer is not restarted, and the stable level stays as it
    was or becomes [r] with the matching message sent. *)
Lemma hold_level r mid :
  forall s s' tr,
    well_formed s -> last_raw s = r ->
    Forall (fun e : sample => snd e = r) mid ->
    run mid s = Some (s', tr) ->
    well_formed s' /\ name s' = name s /\ last_raw s' = r
    /\ last_change s' = last_change s
    /\ (stable s' = stable s
        \/ (stable s' = r
            /\ exists t, In (t, fmt (name s) (if r then "UP" else "DOWN"))
                           tr)).
Proof.
  induction mid as [| [t raw] mid IH]; intros s s' tr Hwf Hr Hmid;
    cbn [run].
  - intros [= <- <-]. auto 10.
  - inversion Hmid as [| ? ? Hraw Hmid']; subst. cbn [snd] in *. subst raw.
    destruct (update t (last_raw s) s) as [[s1 out] |] eqn:Hu;
      [| discriminate].
    destruct (run mid s1) as [[s2 tr2] |] eqn:Hrun; [| discriminate].
    intros [= <- <-].
    destruct (update_shape t (last_raw s) s s1 out Hwf Hu)
      as (Hwf1 & Hn1 & Hr1 & Hc1 & Hcases).
    rewrite eqb_reflx in Hc1.
    destruct (IH s1 s2 tr2 Hwf1 Hr1 Hmid' Hrun)
      as (Hwf2 & Hn2 & Hr2 & Hc2 & Hq).
    rewrite Hn1 in *.
    repeat (split; [congruence |]).
    destruct Hcases
      as [(_ & _ & -> & Hs & _)
         | [(_ & _ & -> & Hs & _) | (_ & _ & -> & Hs & _)]];
      cbn [map app].
    + rewrite Hs in Hq. exact Hq.
    + right. split.
      * destruct Hq as [Hq | [Hq _]]; congruence.
      * exists t. now left.
    + rewrite Hs in Hq. destruct Hq as [Hq | (Hq & t' & Hin)];
        [now left |].
      right. split; [exact Hq |]. exists t'. now right.
Qed.

(** X17.  A level that stays is reported.  When the raw level changes to
    [r] at a poll at time [t1] and the following polls all read [r], then
    by a poll at time [tk] with [ticks_diff tk t1] at least
    [DEBOUNCE_MS] the stable level is [r]; and if it was not [r] before,
    the message for it (UP for 1, DOWN for 0) has been sent in
    between. *)
Theorem steady_level_is_reported nm pn r0 t0 pre t1 mid tk r :
  Forall (fun e : sample => snd e = r) mid ->
  snd (steady_since t0 r0 pre) <> r ->
  DEBOUNCE_MS <= ticks_diff tk t1 ->
  exists self0 tr0 self tr,
    run pre (__init__ nm pn r0 t0) = Some (self0, tr0)
    /\ run (pre ++ (t1, r) :: mid ++ [(tk, r)]) (__init__ nm pn r0 t0)
       = Some (self, tr0 ++ tr)
    /\ stable self = r
    /\ (stable self0 <> r ->
        exists t, In (t, fmt nm (if r then "UP" else "DOWN")) tr).
Proof.
  intros Hmid Hchg Hlong.
  destruct (run_reach nm pn r0 t0 pre)
    as (self0 & tr0 & Hrun0 & Hwf0 & Hnm0 & Hst0 & _).
  rewrite Hst0 in Hchg. cbn [snd] in Hchg.
  destruct (update_total t1 r self0 Hwf0) as (s1 & out1 & Hu1).
  destruct (update_shape t1 r self0 s1 out1 Hwf0 Hu1)
    as (Hwf1 & Hn1 & Hr1 & Hc1 & Hcases1).
  assert (Hneq : Bool.eqb r (last_raw self0) = false).
  { apply eqb_false_iff. congruence. }
  rewrite Hneq in Hc1.
  assert (Hs1 : stable s1 = stable self0).
  { destruct Hcases1
      as [(_ & _ & _ & Hs & _)
         | [(Ec & _) | (_ & _ & _ & Hs & _)]]; try exact Hs.
    apply commits_true in Ec as [Ec _]. rewrite Hneq in Ec.
    rewrite ticks_diff_same in Ec. unfold DEBOUNCE_MS in Ec. lia. }
  assert (Hmid_total : exists s2 tr2, run mid s1 = Some (s2, tr2)).
  { clear - Hwf1. revert s1 Hwf1.
    induction mid as [| [t raw] mid IH]; intros s1 Hwf1; cbn [run];
      [eauto |].
    destruct (update_total t raw s1 Hwf1) as (s' & out & Hu).
    rewrite Hu.
    destruct (update_shape t raw s1 s' out Hwf1 Hu) as (Hwf' & _).
    destruct (IH s' Hwf') as (s2 & tr2 & H2). rewrite H2. eauto. }
  destruct Hmid_total as (s2 & tr2 & Hrun2).
  destruct (hold_level r mid s1 s2 tr2 Hwf1 Hr1 Hmid Hrun2)
    as (Hwf2 & Hn2 & Hr2 & Hc2 & Hq).
  destruct (update_total tk r s2 Hwf2) as (s3 & out3 & Hu3).
  destruct (update_shape tk r s2 s3 out3 Hwf2 Hu3)
    as (_ & _ & _ & _ & Hcases3).
  exists self0, tr0, s3,
    (map (pair t1) out1 ++ tr2 ++ map (pair tk) out3).
  split; [exact Hrun0 |]. split.
  { rewrite run_app, Hrun0. cbn [run]. rewrite Hu1, run_snoc, Hrun2, Hu3.
    reflexivity. }
  rewrite Hn2, Hn1, Hnm0 in *.
  assert (Hcom : commits tk r s2 = negb (Bool.eqb r (stable s2))).
  { unfold commits. rewrite Hr2, eqb_reflx, Hc2, Hc1.
    apply Z.leb_le in Hlong. now rewrite Hlong. }
  destruct Hcases3
    as [(Ec & _ & -> & Hs3 & _)
       | [(Ec & _ & -> & Hs3 & _) | (Ec & _ & -> & Hs3 & _)]].
  - rewrite Ec in Hcom. symmetry in Hcom.
    apply negb_false_iff, eqb_prop in Hcom.
    split; [congruence |]. intros Hne.
    destruct Hq as [Hq | (_ & t & Hin)]; [congruence |].
    exists t. apply in_or_app. right. apply in_or_app. now left.
  - split; [exact Hs3 |]. intros _. exists tk.
    apply in_or_app. right. apply in_or_app. right. now left.
  - rewrite Ec in Hcom. symmetry in Hcom.
    apply negb_false_iff, eqb_prop in Hcom.
    split; [congruence |]. intros Hne.
    destruct Hq as [Hq | (_ & t & Hin)]; [congruence |].
    exists t. apply in_or_app. right. apply in_or_app. now left.
Qed.

Lemma steady_level_is_reported_witness :
  exists self tr,
    run ([] ++ (10, false) :: [(20, false)] ++ [(40, false)])
      (__init__ "A" 16 true 0)
    = Some (self, [] ++ tr)
    /\ stable self = false
    /\ exists t, In (t, fmt "A" "DOWN") tr.
Proof.
  destruct (steady_level_is_reported "A" 16 true 0 [] 10 [(20, false)]
              40 false)
    as (self0 & tr0 & self & tr & H0 & H1 & H2 & H3).
  - repeat constructor.
  - discriminate.
  - vm_compute. discriminate.
  - injection H0 as <- <-. exists self, tr.
    split; [exact H1 |]. split; [exact H2 |]. apply H3. discriminate.
Defined.

End FirmwareMore.

(* ===================================================================== *)
(** * The link: what the button sends is what the controller reads      *)
(* ===================================================================== *)

Module LinkProofs.

Import Host.
Import HostProofs.







(** ** The flag of a button follows its stable level *)




Section OneButton.

Variable ut : N -> list N.
Variable nm : string.
Variable setf : bool -> SerialController -> SerialController.

Hypothesis Hline :
  forall m host,
    Firmware.button_message nm m ->
    ~ In NL (list_byte_of_string m)
    /\ _handle_line ut (text_of (list_byte_of_string m)) host
       = Some (setf (negb (String.eqb m (Firmware.fmt nm "UP"))) host).
Hypothesis Hset : forall a b host, setf a (setf b host) = setf a host.



End OneButton.





End LinkProofs.

(* ===================================================================== *)
(** * The pending shot, the decoder on ASCII, the choice of the port    *)
(* ===================================================================== *)

Module HostEdges.

Import Host.
Import HostProofs.

Lemma handle_line_keeps_shot ut l s s' :
  _handle_line ut l s = Some s' -> shoot s = true -> shoot s' = true.
Proof.
  unfold _handle_line.
  destruct l; [now intros [= <-] |].
  destruct (Text.split _) as [| nm more]; [discriminate |].
  repeat match goal with
    | |- context [if ?c then _ else _] => destruct c
    end; now intros [= <-].
Qed.

Lemma handle_lines_keep_shot ut ls s s' :
  handle_lines ut ls s = Some s' -> shoot s = true -> shoot s' = true.
Proof.
  revert s. induction ls as [| l ls IH]; intros s; cbn [handle_lines].
  - now intros [= <-].
  - destruct (_handle_line ut l s) as [s1 |] eqn:E; [| discriminate].
    intros H Hs. apply (IH s1 H). now apply (handle_line_keeps_shot ut l s).
Qed.

Lemma update_keeps_shot ut rd s s' :
  update ut rd s = Some s' -> shoot s = true -> shoot s' = true.
Proof.
  destruct (conn s) as [c |] eqn:Ec.
  - destruct rd as [[| b data] | |].
    + rewrite update_empty. now intros [= <-].
    + rewrite update_spec by (congruence || discriminate).
      destruct (complete_lines [] (buffer s ++ b :: data)) as [ls rest].
      intros H Hs. now apply (handle_lines_keep_shot ut _ _ _ H).
    + unfold update. rewrite Ec. now intros [= <-].
    + unfold update. rewrite Ec. discriminate.
  - unfold update. rewrite Ec. now intros [= <-].
Qed.

(** X20.  A pending shot is never lost: no line and no poll clears the
    shoot flag once it is set (not a C UP, not a line of another button,
    not a read error); it stays set until [consume_shot] takes it, which
    then returns true. *)
Theorem pending_shot_waits ut rds self self' :
  shoot self = true ->
  polls ut rds self = Some self' ->
  shoot self' = true /\ fst (consume_shot self') = true.
Proof.
  intros Hs Hp.
  assert (H : shoot self' = true).
  { revert self Hs Hp. induction rds as [| rd rds IH]; intros s Hs;
      cbn [polls].
    - now intros [= <-].
    - destruct (update ut rd s) as [s1 |] eqn:E; [| discriminate].
      intros Hp. apply (IH s1); [| exact Hp].
      now apply (update_keeps_shot ut rd s). }
  split; [exact H |]. unfold consume_shot. now rewrite H.
Qed.

Lemma pending_shot_waits_witness :
  shoot (set_shoot true (__init__ Opened "COM3" 115200)) = true
  /\ exists self',
       polls plain_table
         [ReadOk (blit "C UP" ++ [NL] ++ blit "A DOWN" ++ [NL]);
          ReadSerialException]
         (set_shoot true (__init__ Opened "COM3" 115200))
       = Some self'
       /\ fst (consume_shot self') = true.
Proof.
  split; [reflexivity |]. eexists. split; [reflexivity |].
  eapply (pending_shot_waits plain_table
            [ReadOk (blit "C UP" ++ [NL] ++ blit "A DOWN" ++ [NL]);
             ReadSerialException]
            (set_shoot true (__init__ Opened "COM3" 115200)));
    reflexivity.
Defined.

(** ** The decoder on ASCII *)

Lemma decode_ignore_length_le n :
  forall bs, (length bs <= n)%nat ->
             (length (Utf8.decode_ignore bs) <= length bs)%nat.
Proof.
  induction n as [| n IH]; intros bs Hn.
  - destruct bs; [cbn; lia | cbn in Hn; lia].
  - destruct bs as [| b0 r0]; [cbn; lia |].
    cbn [Utf8.decode_ignore].
    repeat match goal with
      | |- context [if ?c then _ else _] => destruct c
      | |- context [match ?l with [] => _ | _ :: _ => _ end] =>
          is_var l; destruct l
      end;
      cbn [length] in *; try lia;
      match goal with
      | |- context [Utf8.decode_ignore ?r] =>
          pose proof (IH r ltac:(cbn [length]; lia))
      end; cbn [length] in *; lia.
Qed.

(** X21.  On ASCII the decoder is the identity: bytes below 128 decode
    to the code points of the same values, one for one.  On any bytes it
    gives at most as many code points as there were bytes. *)
Theorem decode_ignore_ascii bs :
  (Forall (fun b => (Byte.to_N b < 128)%N) bs ->
   Utf8.decode_ignore bs = map Byte.to_N bs)
  /\ (length (Utf8.decode_ignore bs) <= length bs)%nat.
Proof.
  split.
  - induction 1 as [| b bs Hb _ IH]; [reflexivity |].
    cbn [Utf8.decode_ignore map]. apply N.ltb_lt in Hb.
    now rewrite Hb, IH.
  - now apply (decode_ignore_length_le (length bs)).
Qed.

Lemma decode_ignore_ascii_witness :
  Utf8.decode_ignore (blit "A DOWN") = map Byte.to_N (blit "A DOWN").
Proof.
  apply (proj1 (decode_ignore_ascii (blit "A DOWN"))).
  repeat constructor.
Defined.

(** ** [find_serial_port] *)

Lemma first_pico_Some lt ports d :
  first_pico lt ports = Some d <->
  exists pre p post,
    ports = pre ++ p :: post
    /\ Forall (fun q => mentions_pico lt q = false) pre
    /\ mentions_pico lt p = true /\ d = device p.
Proof.
  induction ports as [| q ports IH]; cbn [first_pico].
  - split; [discriminate |]. intros (pre & p & post & H & _).
    now destruct pre.
  - destruct (mentions_pico lt q) eqn:E.
    + split.
      * intros [= <-]. exists [], q, ports. auto.
      * intros (pre & p & post & H & Hpre & Hp & ->).
        destruct pre as [| q' pre]; injection H as -> H; [reflexivity |].
        inversion Hpre; subst. congruence.
    + rewrite IH. split.
      * intros (pre & p & post & -> & Hpre & Hp & ->).
        exists (q :: pre), p, post. auto.
      * intros (pre & p & post & H & Hpre & Hp & ->).
        destruct pre as [| q' pre]; injection H as -> H; [congruence |].
        inversion Hpre; subst. exists pre, p, post. auto.
Qed.

Lemma first_pico_None lt ports :
  first_pico lt ports = None <->
  Forall (fun q => mentions_pico lt q = false) ports.
Proof.
  induction ports as [| q ports IH]; cbn [first_pico].
  - split; [constructor | reflexivity].
  - destruct (mentions_pico lt q) eqn:E.
    + split; [discriminate |]. intros H. inversion H; congruence.
    + rewrite IH. split; [now constructor | intros H; now inversion H].
Qed.

(** X22.  [find_serial_port] never invents a port.  When listing the
    ports raises or gives none, it returns the default ([PICO_PORT] from
    the environment, else COM3).  Otherwise it returns the device of a
    listed port: of the first one whose description mentions pico in any
    letter case, and of the first port of the list when none does. *)
Theorem find_serial_port_choice lt pico_port lib :
  (lib = ComportsRaises \/ lib = PortsListed [] ->
   find_serial_port lt pico_port lib = DEFAULT_SERIAL_PORT pico_port)
  /\ (forall ports,
        lib = PortsListed ports -> ports <> [] ->
        exists p, In p ports
                  /\ find_serial_port lt pico_port lib = device p)
  /\ (forall pre p post,
        lib = PortsListed (pre ++ p :: post) ->
        Forall (fun q => mentions_pico lt q = false) pre ->
        mentions_pico lt p = true ->
        find_serial_port lt pico_port lib = device p)
  /\ (forall p ports,
        lib = PortsListed (p :: ports) ->
        Forall (fun q => mentions_pico lt q = false) (p :: ports) ->
        find_serial_port lt pico_port lib = device p).
Proof.
  split; [| split; [| split]].
  - intros [-> | ->]; reflexivity.
  - intros ports -> Hne. cbn [find_serial_port].
    destruct (first_pico lt ports) as [d |] eqn:E.
    + apply first_pico_Some in E as (pre & p & post & -> & _ & _ & ->).
      exists p. split; [| reflexivity]. apply in_or_app. right. now left.
    + destruct ports as [| p ports]; [contradiction |].
      exists p. split; [now left | reflexivity].
  - intros pre p post -> Hpre Hp. cbn [find_serial_port].
    assert (E : first_pico lt (pre ++ p :: post) = Some (device p)).
    { apply first_pico_Some. exists pre, p, post. auto. }
    now rewrite E.
  - intros p ports -> H. cbn [find_serial_port].
    apply first_pico_None in H. now rewrite H.
Qed.

Lemma find_serial_port_choice_witness :
  find_serial_port plain_table None (PortsListed demo_ports) = "COM7"%string.
Proof.
  destruct (find_serial_port_choice plain_table None (PortsListed demo_ports))
    as (_ & _ & H & _).
  apply (H [mkPort "COM1" (Text.lit "Communications Port")]
           (mkPort "COM7" (Text.lit "Raspberry Pi PICO (COM7)"))
           [mkPort "COM9" (Text.lit "pico probe")]).
  - reflexivity.
  - repeat constructor.
  - reflexivity.
Defined.

End HostEdges.
